(** * stability_sdk/utils.py: a shallow embedding and its properties

    The module under study is the helper module of the SDK: enum lookups,
    the filename builder [truncate_fit], the keyframe parser and
    interpolator, the response loop of [image_xform] and the two warp
    builders.  Python values are embedded as follows.

    - [str] is [string]; a character is a code point below 256.
    - [int] is [Z]; [float] is the kernel's binary64 [float], so that
      [nan], comparisons and arithmetic are those of the interpreter.
    - a [dict] is an insertion-ordered association list with unique keys.
    - a function that may raise returns a [result]. *)

From Stdlib Require Import ZArith List String Ascii Bool Lia Floats DecimalString.
From Stdlib Require DecimalPos.
From Equations Require Import Equations.
Import ListNotations.

Local Open Scope string_scope.
Local Open Scope Z_scope.

(** ** Exceptions and results *)

Inductive exn : Type :=
| ValueError (msg : string)
| RuntimeError (msg : string)
| KeyError
| AssertionError
| Exception (msg : string).

Inductive result (A : Type) : Type :=
| Ok (a : A)
| Raise (e : exn).

Arguments Ok {A} a.
Arguments Raise {A} e.

Definition bind {A B : Type} (r : result A) (k : A -> result B) : result B :=
  match r with
  | Ok a => k a
  | Raise e => Raise e
  end.

Notation "x <- r ;; k" := (bind r (fun x => k))
  (at level 61, r at next level, right associativity).

(** [for x in xs: st = body(st, x)] where the body may raise. *)
Fixpoint for_each {A S : Type} (body : S -> A -> result S) (xs : list A) (st : S)
  : result S :=
  match xs with
  | [] => Ok st
  | x :: xs' => st' <- body st x ;; for_each body xs' st'
  end.

(** ** Strings *)

Definition code (c : ascii) : nat := nat_of_ascii c.

(** [str.isspace] on one character, which is also the class [\s] of [re]. *)
Definition is_space (c : ascii) : bool :=
  let n := code c in
  ((9 <=? n) && (n <=? 13) || (28 <=? n) && (n <=? 32) || (n =? 133) || (n =? 160))%nat.

Definition is_digit (c : ascii) : bool :=
  let n := code c in ((48 <=? n) && (n <=? 57))%nat.

Definition is_upper (c : ascii) : bool :=
  let n := code c in
  ((65 <=? n) && (n <=? 90) || (192 <=? n) && (n <=? 222) && negb (n =? 215))%nat.

Definition lower_char (c : ascii) : ascii :=
  if is_upper c then ascii_of_nat (code c + 32) else c.

(** [s.lower()] *)
Fixpoint lower (s : string) : string :=
  match s with
  | EmptyString => EmptyString
  | String c s' => String (lower_char c) (lower s')
  end.

Fixpoint lstrip (s : string) : string :=
  match s with
  | EmptyString => EmptyString
  | String c s' => if is_space c then lstrip s' else s
  end.

Fixpoint rstrip (s : string) : string :=
  match s with
  | EmptyString => EmptyString
  | String c s' =>
      match rstrip s' with
      | EmptyString => if is_space c then EmptyString else String c EmptyString
      | r => String c r
      end
  end.

(** [s.strip()] *)
Definition strip (s : string) : string := rstrip (lstrip s).

(** [len(s)] *)
Definition len (s : string) : Z := Z.of_nat (String.length s).

(** [s[:stop]]: a negative [stop] counts from the end, and both ends are
    clipped to the string. *)
Definition slice_to (s : string) (stop : Z) : string :=
  let stop := if stop <? 0 then Z.max (stop + len s) 0 else Z.min stop (len s) in
  substring 0 (Z.to_nat stop) s.

(** [f"{n}"] for an [int]. *)
Definition str_of_int (n : Z) : string := NilZero.string_of_int (Z.to_int n).

(** ** Dictionaries *)

Section Dict.
Context {K V : Type} (eqb : K -> K -> bool).

(** [d.get(k)] *)
Fixpoint dict_get (d : list (K * V)) (k : K) : option V :=
  match d with
  | [] => None
  | (k', v) :: d' => if eqb k' k then Some v else dict_get d' k
  end.

(** [d[k] = v]: an existing key keeps its place. *)
Fixpoint dict_set (d : list (K * V)) (k : K) (v : V) : list (K * V) :=
  match d with
  | [] => [(k, v)]
  | (k', v') :: d' =>
      if eqb k' k then (k', v) :: d' else (k', v') :: dict_set d' k v
  end.
End Dict.

(** ** Enum lookup tables (lines 35-112) *)

(** Modelled from the spec: the protocol enums of the generated schema
    module [generation_pb2] (not under src), one inductive type for each of
    the four domains, with the constants the tables name. *)

Inductive DiffusionSampler : Type :=
| SAMPLER_DDIM | SAMPLER_DDPM | SAMPLER_K_EULER | SAMPLER_K_EULER_ANCESTRAL
| SAMPLER_K_HEUN | SAMPLER_K_DPM_2 | SAMPLER_K_DPM_2_ANCESTRAL | SAMPLER_K_LMS.

Inductive GuidancePreset : Type :=
| GUIDANCE_PRESET_NONE | GUIDANCE_PRESET_SIMPLE
| GUIDANCE_PRESET_FAST_BLUE | GUIDANCE_PRESET_FAST_GREEN.

Inductive ColorMatchMode : Type :=
| COLOR_MATCH_HSV | COLOR_MATCH_LAB | COLOR_MATCH_RGB.

Inductive BorderMode : Type :=
| BORDER_REPLICATE | BORDER_REFLECT | BORDER_WRAP | BORDER_ZERO.

Definition SAMPLERS : list (string * DiffusionSampler) :=
  [ ("ddim", SAMPLER_DDIM);
    ("plms", SAMPLER_DDPM);
    ("k_euler", SAMPLER_K_EULER);
    ("k_euler_ancestral", SAMPLER_K_EULER_ANCESTRAL);
    ("k_heun", SAMPLER_K_HEUN);
    ("k_dpm_2", SAMPLER_K_DPM_2);
    ("k_dpm_2_ancestral", SAMPLER_K_DPM_2_ANCESTRAL);
    ("k_lms", SAMPLER_K_LMS) ].

Definition GUIDANCE_PRESETS : list (string * GuidancePreset) :=
  [ ("none", GUIDANCE_PRESET_NONE);
    ("simple", GUIDANCE_PRESET_SIMPLE);
    ("fastblue", GUIDANCE_PRESET_FAST_BLUE);
    ("fastgreen", GUIDANCE_PRESET_FAST_GREEN) ].

Definition COLOR_SPACES : list (string * ColorMatchMode) :=
  [ ("hsv", COLOR_MATCH_HSV);
    ("lab", COLOR_MATCH_LAB);
    ("rgb", COLOR_MATCH_RGB) ].

Definition BORDER_MODES_2D : list (string * BorderMode) :=
  [ ("replicate", BORDER_REPLICATE);
    ("reflect", BORDER_REFLECT);
    ("wrap", BORDER_WRAP);
    ("zero", BORDER_ZERO) ].

Definition _2d_only_modes : list string := ["wrap"].

(** [{k: v for k, v in BORDER_MODES_2D.items() if k not in _2d_only_modes}] *)
Definition BORDER_MODES_3D : list (string * BorderMode) :=
  fold_left
    (fun d kv =>
       if existsb (String.eqb (fst kv)) _2d_only_modes then d
       else dict_set String.eqb d (fst kv) (snd kv))
    BORDER_MODES_2D [].

Definition border_mode_from_str_2d (s : string) : result BorderMode :=
  match dict_get String.eqb BORDER_MODES_2D (strip (lower s)) with
  | None => Raise (ValueError ("invalid 2d border mode " ++ s))
  | Some repr => Ok repr
  end.

Definition border_mode_from_str_3d (s : string) : result BorderMode :=
  match dict_get String.eqb BORDER_MODES_3D (strip (lower s)) with
  | None => Raise (ValueError ("invalid 3d border mode " ++ s))
  | Some repr => Ok repr
  end.

Definition color_match_from_string (s : string) : result ColorMatchMode :=
  match dict_get String.eqb COLOR_SPACES (strip (lower s)) with
  | None => Raise (ValueError ("invalid color space: " ++ s))
  | Some repr => Ok repr
  end.

Definition guidance_from_string (s : string) : result GuidancePreset :=
  match dict_get String.eqb GUIDANCE_PRESETS (strip (lower s)) with
  | None => Raise (ValueError ("invalid guidance preset: " ++ s))
  | Some repr => Ok repr
  end.

Definition get_sampler_from_str (s : string) : result DiffusionSampler :=
  let algorithm_key := strip (lower s) in
  match dict_get String.eqb SAMPLERS algorithm_key with
  | None => Raise (ValueError ("invalid sampler: " ++ s))
  | Some repr => Ok repr
  end.

Definition sampler_from_string := get_sampler_from_str.

(** ** Filename builder (lines 115-129) *)

Definition truncate_fit (prefix prompt ext : string) (ts idx max : Z) : string :=
  let post := "_" ++ str_of_int ts ++ "_" ++ str_of_int idx in
  let prompt_budget := max in
  let prompt_budget := prompt_budget - len prefix in
  let prompt_budget := prompt_budget - len post in
  let prompt_budget := prompt_budget - (len ext + 1) in
  prefix ++ slice_to prompt prompt_budget ++ post ++ ext.

(** ** Protocol messages *)

Definition bytes : Type := list Byte.byte.

(** Modelled from the spec: the type tag of an artifact of the generated
    schema (not under src): an image, a mask, or one of the other payload
    kinds, which this module does not tell apart. *)
Inductive ArtifactType : Type :=
| ARTIFACT_NONE | ARTIFACT_IMAGE | ARTIFACT_VIDEO | ARTIFACT_TEXT
| ARTIFACT_TOKENS | ARTIFACT_EMBEDDING | ARTIFACT_CLASSIFICATIONS
| ARTIFACT_MASK | ARTIFACT_LATENT | ARTIFACT_TENSOR.

Definition ArtifactType_eqb (a b : ArtifactType) : bool :=
  match a, b with
  | ARTIFACT_NONE, ARTIFACT_NONE | ARTIFACT_IMAGE, ARTIFACT_IMAGE
  | ARTIFACT_VIDEO, ARTIFACT_VIDEO | ARTIFACT_TEXT, ARTIFACT_TEXT
  | ARTIFACT_TOKENS, ARTIFACT_TOKENS | ARTIFACT_EMBEDDING, ARTIFACT_EMBEDDING
  | ARTIFACT_CLASSIFICATIONS, ARTIFACT_CLASSIFICATIONS
  | ARTIFACT_MASK, ARTIFACT_MASK | ARTIFACT_LATENT, ARTIFACT_LATENT
  | ARTIFACT_TENSOR, ARTIFACT_TENSOR => true
  | _, _ => false
  end.

(** Modelled from the spec: the messages of the generated schema (not
    under src), with the fields this module reads or writes. *)
Record Artifact : Type := mkArtifact {
  type : ArtifactType;
  binary : bytes
}.

Record PromptParameters : Type := mkPromptParameters { init : bool }.

Record Prompt : Type := mkPrompt {
  parameters : PromptParameters;
  artifact : Artifact
}.

Record TransformWarp2d : Type := mkTransformWarp2d {
  warp2d_border_mode : BorderMode;
  warp2d_rotate : float;
  warp2d_scale : float;
  warp2d_translate_x : float;
  warp2d_translate_y : float
}.

Record TransformWarp3d : Type := mkTransformWarp3d {
  border_mode : BorderMode;
  translate_x : float;
  translate_y : float;
  translate_z : float;
  rotate_x : float;
  rotate_y : float;
  rotate_z : float;
  near_plane : float;
  far_plane : float;
  fov : float
}.

Inductive TransformOperation : Type :=
| warp2d (w : TransformWarp2d)
| warp3d (w : TransformWarp3d).

Record Request : Type := mkRequest {
  engine_id : string;
  prompt : list Prompt;
  transform_sequence : list TransformOperation
}.

(** One message of the response stream. *)
Record Answer : Type := mkAnswer { artifacts : list Artifact }.

(** ** Warp builders (lines 296-331) *)

Definition warp2d_op (dx dy rotate scale : float) (border : string)
  : result TransformOperation :=
  border_mode <- border_mode_from_str_2d border ;;
  Ok (warp2d {| warp2d_border_mode := border_mode;
                warp2d_rotate := rotate;
                warp2d_scale := scale;
                warp2d_translate_x := dx;
                warp2d_translate_y := dy |}).

Section Warp3d.
(** [f"{x}"] for a [float]: the interpreter's formatting. *)
Variable str_of_float : float -> string.

Definition warp3d_op (dx dy dz rx ry rz near far fov : float) (border : string)
  : result TransformOperation :=
  if negb (near <? far)%float then
    Raise (ValueError ("Invalid camera volume: must satisfy near < far, "
                       ++ "got near=" ++ str_of_float near
                       ++ ", far=" ++ str_of_float far))
  else if negb (0 <? fov)%float then
    Raise (ValueError ("Invalid camera volume: fov must be greater than 0, "
                       ++ "got fov=" ++ str_of_float fov))
  else
    border_mode <- border_mode_from_str_3d border ;;
    Ok (warp3d {| border_mode := border_mode;
                  translate_x := dx;
                  translate_y := dy;
                  translate_z := dz;
                  rotate_x := rx;
                  rotate_y := ry;
                  rotate_z := rz;
                  near_plane := near;
                  far_plane := far;
                  fov := fov |}).
End Warp3d.

(** ** The transform call (lines 262-293) *)

Section ImageXform.
(** Decoded images are arrays of the numeric library. *)
Variable ndarray : Type.
(** [cv2.imencode('.png', image)[1].tobytes()] *)
Variable image_to_png_bytes : ndarray -> bytes.
(** [cv2.imdecode(np.frombuffer(b, np.uint8), cv2.IMREAD_COLOR)]: the
    array read from the payload, [None] for a payload that holds no
    picture, or the exception the codec raises (as it does for an empty
    payload). *)
Variable imdecode : bytes -> result (option ndarray).
(** [stub.Generate(rq, wait_for_ready=True)]: the messages the service
    streams back for a request. *)
Variable Generate : Request -> list Answer.

Definition image_to_prompt (image : ndarray) (is_mask : bool) : Prompt :=
  let image := image_to_png_bytes image in
  {| parameters := {| init := negb is_mask |};
     artifact := {| type := if is_mask then ARTIFACT_MASK else ARTIFACT_IMAGE;
                    binary := image |} |}.

(** The body of the inner loop: one artifact against the images collected
    so far and the mask slot.  The list holds what the codec returned for
    each image, an array or [None]; the slot holds [None] until a mask is
    assigned to it, and still [None] when the codec returned [None] for
    that mask: [mask is not None] tells the two apart no more than the
    code does. *)
Definition on_artifact (st : list (option ndarray) * option ndarray)
    (artifact : Artifact) : result (list (option ndarray) * option ndarray) :=
  let '(images, mask) := st in
  if existsb (ArtifactType_eqb (type artifact)) [ARTIFACT_IMAGE; ARTIFACT_MASK] then
    im <- imdecode (binary artifact) ;;
    if ArtifactType_eqb (type artifact) ARTIFACT_IMAGE then
      Ok ((images ++ [im])%list, mask)
    else if ArtifactType_eqb (type artifact) ARTIFACT_MASK then
      match mask with
      | Some _ =>
          Raise (Exception
            "multiple masks returned in response, cliend implementaion currently assumes no more than one mask returned")
      | None => Ok (images, im)
      end
    else Ok (images, mask)
  else Ok (images, mask).

Definition on_answer (st : list (option ndarray) * option ndarray) (resp : Answer)
  : result (list (option ndarray) * option ndarray) :=
  for_each on_artifact (artifacts resp) st.

Definition image_xform (images : list ndarray) (ops : list TransformOperation)
    (engine_id : string) : result (list (option ndarray) * option ndarray) :=
  if (List.length images =? 0)%nat then Raise AssertionError
  else
    let transforms := ops in
    let p := map (fun image => image_to_prompt image false) images in
    let rq := {| engine_id := engine_id; prompt := p;
                 transform_sequence := transforms |} in
    for_each on_answer (Generate rq) ([], None).
End ImageXform.

(** ** Opening images (lines 134-153) *)

Section OpenImages.
(** A picture opened by the imaging library. *)
Variable PILImage : Type.
(** [Image.open(io.BytesIO(b))]: the picture read from the payload, or
    the exception the imaging library raises for it. *)
Variable Image_open : bytes -> result PILImage.

(** What a run of the generator does, in order: a line written to the
    log, a picture shown, an item handed to the consumer. *)
Inductive effect : Type :=
| logger_info (msg : string)
| show (img : PILImage)
| yield (path : string) (artifact : Artifact).

(** The effects of the generator consumed to its end, and how it ends:
    exhausted, or with the exception raised in it. *)
Fixpoint open_images (images : list (string * Artifact)) (verbose : bool)
  : list effect * result unit :=
  match images with
  | [] => ([], Ok tt)
  | (path, artifact) :: images' =>
      if ArtifactType_eqb (type artifact) ARTIFACT_IMAGE then
        let log := if verbose then [logger_info ("opening " ++ path)] else [] in
        match Image_open (binary artifact) with
        | Raise e => (log, Raise e)
        | Ok img =>
            let '(effects, r) := open_images images' verbose in
            ((log ++ show img :: yield path artifact :: effects)%list, r)
        end
      else
        let '(effects, r) := open_images images' verbose in
        (yield path artifact :: effects, r)
  end.
End OpenImages.

Arguments logger_info {PILImage} msg.
Arguments show {PILImage} img.
Arguments yield {PILImage} path artifact.

(** ** Keyframe expansion (lines 193-210) *)

(** [pd.isna] on a float. *)
Definition isna (x : float) : bool := negb (x =? x)%float.

(** A [pandas.Series] of floats: the index labels with their values, in
    positional order.  [s[i]] looks a label up, as [dict_get] does, and
    [s[i] = v] writes under a label, as [dict_set] does: a label that is
    not in the index is appended to the series (setting with
    enlargement). *)
Definition Series : Type := list (Z * float).

(** [pd.Series([np.nan for a in range(max_frames)])] *)
Definition series_nan (max_frames : Z) : Series :=
  map (fun a => (Z.of_nat a, nan)) (seq 0 (Z.to_nat max_frames)).

Fixpoint first_valid_index (s : Series) : option Z :=
  match s with
  | [] => None
  | (i, v) :: s' => if isna v then first_valid_index s' else Some i
  end.

Definition last_valid_index (s : Series) : option Z := first_valid_index (rev s).

(** [s[label]] where [label] may be [None]. *)
Definition series_at (s : Series) (label : option Z) : result float :=
  match label with
  | None => Raise KeyError
  | Some i =>
      match dict_get Z.eqb s i with
      | None => Raise KeyError
      | Some v => Ok v
      end
  end.

(** Lines 194-198: the series of undefined frames with the keyframes
    written into it.  The values of the map are floats, so that
    [astype(float)] changes nothing. *)
Definition keyed_series (key_frames : list (Z * float)) (max_frames : Z) : Series :=
  fold_left (fun s kv => dict_set Z.eqb s (fst kv) (snd kv))
            key_frames (series_nan max_frames).

(** Lines 200-203. *)
Definition effective_method (interp_method : string) (n : nat) : string :=
  let interp_method :=
    if (interp_method =? "Cubic")%string && (n <=? 3)%nat then "Quadratic"
    else interp_method in
  let interp_method :=
    if (interp_method =? "Quadratic")%string && (n <=? 2)%nat then "Linear"
    else interp_method in
  interp_method.

(** Lines 205-206. *)
Definition clamp_ends (key_frame_series : Series) (max_frames : Z) : result Series :=
  v <- series_at key_frame_series (first_valid_index key_frame_series) ;;
  let key_frame_series := dict_set Z.eqb key_frame_series 0 v in
  v <- series_at key_frame_series (last_valid_index key_frame_series) ;;
  Ok (dict_set Z.eqb key_frame_series (max_frames - 1) v).

Definition is_finite (x : float) : bool :=
  match Prim2SF x with
  | S754_nan | S754_infinity _ => false
  | _ => true
  end.

(** The cast of a finite float to [int64]: truncation toward zero; a
    value outside the range gives the smallest [int64]. *)
Definition float_to_int64 (x : float) : Z :=
  match Prim2SF x with
  | S754_finite s m e =>
      let a := if 0 <=? e then Z.pos m * 2 ^ e else Z.quot (Z.pos m) (2 ^ (- e)) in
      let r := if s then - a else a in
      if (- 2 ^ 63 <=? r) && (r <? 2 ^ 63) then r else - 2 ^ 63
  | _ => 0
  end.

(** [s.astype(int)] *)
Definition astype_int (s : Series) : result (list (Z * Z)) :=
  if forallb (fun iv => is_finite (snd iv)) s
  then Ok (map (fun iv => (fst iv, float_to_int64 (snd iv))) s)
  else Raise (ValueError "Cannot convert non-finite values (NA or inf) to integer").

(** What [key_frame_inbetweens] returns: a series of floats, or of
    integers when [integer] is set. *)
Inductive KeyframeSeries : Type :=
| FloatSeries (s : Series)
| IntSeries (s : list (Z * Z)).

Section KeyFrameInbetweens.
(** [s.interpolate(method=m, limit_direction='both')], a routine of the
    data-frame library. *)
Variable interpolate : string -> Series -> result Series.

Definition key_frame_inbetweens (key_frames : list (Z * float)) (max_frames : Z)
    (integer : bool) (interp_method : string) : result KeyframeSeries :=
  let key_frame_series := keyed_series key_frames max_frames in
  let interp_method := effective_method interp_method (List.length key_frames) in
  key_frame_series <- clamp_ends key_frame_series max_frames ;;
  key_frame_series <- interpolate (lower interp_method) key_frame_series ;;
  if integer then
    ints <- astype_int key_frame_series ;; Ok (IntSeries ints)
  else Ok (FloatSeries key_frame_series).
End KeyFrameInbetweens.

(** *** Linear interpolation *)

Definition float_of_Z (x : Z) : float := PrimFloat.of_uint63 (Uint63.of_Z x).

(** The point at [x] of the line through [(xa, ya)] and [(xb, yb)], as
    the numeric library evaluates it: from the left end; where that is
    undefined, from the right end; and where that is undefined too and
    the two ends agree, their common value. *)
Definition lerp (xa : Z) (ya : float) (xb : Z) (yb : float) (x : Z) : float :=
  let slope := ((yb - ya) / (float_of_Z xb - float_of_Z xa))%float in
  let y := (slope * (float_of_Z x - float_of_Z xa) + ya)%float in
  if isna y then
    let y := (slope * (float_of_Z x - float_of_Z xb) + yb)%float in
    if isna y && (ya =? yb)%float then ya else y
  else y.

(** The first defined value of [vs] with its position, [vs] starting at
    position [x]. *)
Fixpoint next_valid (x : Z) (vs : list float) : option (Z * float) :=
  match vs with
  | [] => None
  | v :: vs' => if isna v then next_valid (x + 1) vs' else Some (x, v)
  end.

(** Fills the undefined values of [vs], which starts at position [x];
    [prev] is the last defined value before [x]. *)
Fixpoint fill_linear (prev : option (Z * float)) (x : Z) (vs : list float)
  : list float :=
  match vs with
  | [] => []
  | v :: vs' =>
      if isna v then
        let v' := match prev, next_valid (x + 1) vs' with
                  | Some (xa, ya), Some (xb, yb) => lerp xa ya xb yb x
                  | Some (_, ya), None => ya
                  | None, Some (_, yb) => yb
                  | None, None => v
                  end in
        v' :: fill_linear prev (x + 1) vs'
      else v :: fill_linear (Some (x, v)) (x + 1) vs'
  end.

(** Modelled from the spec: the linear method of the data-frame library's
    [interpolate] (an external routine, not under src), as sections 4.4
    and 9 describe it: values are taken as equally spaced, an interior gap
    is filled on the line between its two defined neighbours ([lerp]),
    and a gap at either end takes the nearest defined value. *)
Definition interpolate_linear (s : Series) : Series :=
  combine (map fst s) (fill_linear None 0 (map snd s)).

(** The routine with its linear method only. *)
Definition interpolate_linear_only (method : string) (s : Series) : result Series :=
  if (method =? "linear")%string then Ok (interpolate_linear s)
  else Raise (ValueError ("method not modelled: " ++ method)).

(** ** Keyframe parsing (lines 212-224) *)

(** The longest prefix of [s] whose characters satisfy [p], and the rest. *)
Fixpoint span (p : ascii -> bool) (s : string) : string * string :=
  match s with
  | EmptyString => (EmptyString, EmptyString)
  | String c s' =>
      if p c then let '(a, b) := span p s' in (String c a, b)
      else (EmptyString, s)
  end.

(** The text before the first [")"] of [s] and the text after it. *)
Fixpoint until_rparen (s : string) : option (string * string) :=
  match s with
  | EmptyString => None
  | String c s' =>
      if Ascii.eqb c ")" then Some (EmptyString, s')
      else match until_rparen s' with
           | Some (a, b) => Some (String c a, b)
           | None => None
           end
  end.

(** A match of the pattern
    [((?P<frame>[0-9]+):[\s]*[\(](?P<param>[\S\s]*?)[\)])]
    at the start of [s]: the groups [frame] and [param], and what follows
    the match.  The digits and the blanks are taken greedily (what must
    follow them is in neither class), the parameter lazily. *)
Definition match_here (s : string) : option (string * string * string) :=
  let '(frame, r) := span is_digit s in
  match frame, r with
  | String _ _, String ":" r =>
      let '(_, r) := span is_space r in
      match r with
      | String "(" r =>
          match until_rparen r with
          | Some (param, r) => Some (frame, param, r)
          | None => None
          end
      | _ => None
      end
  | _, _ => None
  end.

Lemma span_shorter (p : ascii -> bool) (s : string) :
  (String.length (snd (span p s)) <= String.length s)%nat.
Proof.
  induction s as [|c s IH]; simpl; [lia|].
  destruct (p c); [|simpl; lia].
  destruct (span p s) as [a b]; simpl in *. lia.
Qed.

Lemma until_rparen_shorter (s a b : string) :
  until_rparen s = Some (a, b) -> (String.length b < String.length s)%nat.
Proof.
  revert a b; induction s as [|c s IH]; simpl; intros a b H; [discriminate|].
  destruct (Ascii.eqb c ")").
  - inversion H; subst. lia.
  - destruct (until_rparen s) as [[a' b']|]; [|discriminate].
    inversion H; subst. specialize (IH _ _ eq_refl). lia.
Qed.

Lemma match_here_shorter (s frame param r : string) :
  match_here s = Some (frame, param, r) -> (String.length r < String.length s)%nat.
Proof.
  unfold match_here. pose proof (span_shorter is_digit s) as H1.
  destruct (span is_digit s) as [f r1]; simpl in H1.
  destruct f as [|c0 f]; [discriminate|].
  destruct r1 as [|c r1]; [discriminate|].
  destruct (Ascii.eqb_spec c ":") as [->|N].
  2:{ destruct c as [[] [] [] [] [] [] [] []]; try discriminate; congruence. }
  pose proof (span_shorter is_space r1) as H2.
  destruct (span is_space r1) as [ws r2]; simpl in H2.
  destruct r2 as [|c2 r2]; [discriminate|].
  destruct (Ascii.eqb_spec c2 "(") as [->|N].
  2:{ destruct c2 as [[] [] [] [] [] [] [] []]; try discriminate; congruence. }
  destruct (until_rparen r2) as [[p r3]|] eqn:E; [|discriminate].
  intros H; inversion H; subst.
  apply until_rparen_shorter in E. simpl in *. lia.
Qed.

(** A value together with the equation that names it. *)
Definition inspect {A : Type} (a : A) : {b : A | a = b} := exist _ a eq_refl.

(** [re.finditer(pattern, s)]: the groups [(frame, param)] of the matches,
    found from left to right; the search resumes where a match ended, and
    one character further where none starts. *)
Equations? finditer (s : string) : list (string * string)
  by wf (String.length s) lt :=
  finditer EmptyString := [];
  finditer (String c s') with inspect (match_here (String c s')) => {
    | exist _ (Some (frame, param, r)) E := (frame, param) :: finditer r;
    | exist _ None _ := finditer s' }.
Proof.
  apply match_here_shorter in E. exact E.
Qed.

(** [int(frame)] for a string of decimal digits. *)
Definition int_of_digits (frame : string) : Z :=
  fold_left (fun n c => 10 * n + Z.of_nat (code c - 48))
            (list_ascii_of_string frame) 0.

(** A recorded parameter: the text itself, or what the caller's parser
    made of it. *)
Inductive param_value (V : Type) : Type :=
| Text (param : string)
| Parsed (v : V).

Arguments Text {V} param.
Arguments Parsed {V} v.

Section KeyFrameParse.
Context {V : Type}.

Definition key_frame_parse (string : String.string)
    (prompt_parser : option (String.string -> V))
  : result (list (Z * param_value V)) :=
  let frames :=
    fold_left
      (fun frames match_object =>
         let frame := int_of_digits (fst match_object) in
         let param := snd match_object in
         match prompt_parser with
         | Some parser => dict_set Z.eqb frames frame (Parsed (parser param))
         | None => dict_set Z.eqb frames frame (Text param)
         end)
      (finditer string) [] in
  match frames with
  | [] =>
      if negb (len string =? 0)
      then Raise (RuntimeError "Key Frame string not correctly formatted")
      else Ok frames
  | _ => Ok frames
  end.
End KeyFrameParse.

(** * Properties *)

(** ** Strings *)

Fixpoint all_space (s : string) : bool :=
  match s with
  | EmptyString => true
  | String c s' => is_space c && all_space s'
  end.

Lemma append_assoc (a b c : string) : (a ++ b) ++ c = a ++ b ++ c.
Proof. induction a as [|x a IH]; simpl; [reflexivity | now rewrite IH]. Qed.

Lemma append_empty_r (a : string) : a ++ "" = a.
Proof. induction a as [|x a IH]; simpl; [reflexivity | now rewrite IH]. Qed.

Lemma length_append (a b : string) :
  String.length (a ++ b) = (String.length a + String.length b)%nat.
Proof. induction a as [|x a IH]; simpl; [reflexivity | now rewrite IH]. Qed.

Lemma lower_append (a b : string) : lower (a ++ b) = lower a ++ lower b.
Proof. induction a as [|x a IH]; simpl; [reflexivity | now rewrite IH]. Qed.

Lemma space_not_upper (c : ascii) : is_space c = true -> lower_char c = c.
Proof.
  destruct c as [[] [] [] [] [] [] [] []]; vm_compute; intros H;
    first [reflexivity | discriminate H].
Qed.

Lemma lower_blank (ws : string) : all_space ws = true -> lower ws = ws.
Proof.
  induction ws as [|c ws IH]; simpl; [reflexivity|].
  intros H; apply andb_prop in H as [Hc Hws].
  now rewrite (space_not_upper c Hc), IH.
Qed.

Lemma lstrip_blank (ws s : string) :
  all_space ws = true -> lstrip (ws ++ s) = lstrip s.
Proof.
  induction ws as [|c ws IH]; simpl; [reflexivity|].
  intros H; apply andb_prop in H as [Hc Hws]. rewrite Hc. auto.
Qed.

Lemma rstrip_blank (ws : string) : all_space ws = true -> rstrip ws = "".
Proof.
  induction ws as [|c ws IH]; simpl; [reflexivity|].
  intros H; apply andb_prop in H as [Hc Hws]. now rewrite IH, Hc.
Qed.

Lemma rstrip_append_blank (s ws : string) :
  all_space ws = true -> rstrip (s ++ ws) = rstrip s.
Proof.
  intros H; induction s as [|c s IH]; simpl.
  - now apply rstrip_blank.
  - now rewrite IH.
Qed.

Lemma lstrip_length (s : string) : (String.length (lstrip s) <= String.length s)%nat.
Proof.
  induction s as [|c s IH]; simpl; [lia|]. destruct (is_space c); simpl; lia.
Qed.

Lemma rstrip_length (s : string) : (String.length (rstrip s) <= String.length s)%nat.
Proof.
  induction s as [|c s IH]; simpl; [lia|].
  destruct (rstrip s); [destruct (is_space c)|]; simpl in *; lia.
Qed.

(** A string that [strip] leaves alone is also left alone by each half. *)
Lemma strip_fixed_lstrip (k : string) : strip k = k -> lstrip k = k.
Proof.
  unfold strip; intros H. destruct k as [|c k]; [reflexivity|].
  simpl in *. destruct (is_space c); [|reflexivity].
  exfalso. pose proof (rstrip_length (lstrip k)) as H1.
  pose proof (lstrip_length k) as H2. rewrite H in H1. simpl in H1. lia.
Qed.

Lemma lstrip_fixed_append (k s : string) :
  k <> "" -> lstrip k = k -> lstrip (k ++ s) = k ++ s.
Proof.
  destruct k as [|c k]; [congruence|]. intros _. simpl.
  destruct (is_space c); [|reflexivity].
  intros H. exfalso. pose proof (lstrip_length k) as H1. rewrite H in H1.
  simpl in H1. lia.
Qed.

(** Surrounding blanks are trimmed away and nothing else is. *)
Lemma strip_padded (k ws1 ws2 : string) :
  strip k = k -> all_space ws1 = true -> all_space ws2 = true ->
  strip (ws1 ++ k ++ ws2) = k.
Proof.
  intros Hk H1 H2. pose proof (strip_fixed_lstrip k Hk) as Hl.
  unfold strip in *. rewrite lstrip_blank by assumption.
  destruct k as [|c k].
  - simpl. apply rstrip_blank. clear -H2.
    induction ws2 as [|c w IH]; simpl in *; [reflexivity|].
    apply andb_prop in H2 as [Hc Hw]. rewrite Hc. auto.
  - rewrite lstrip_fixed_append by (assumption || discriminate).
    rewrite rstrip_append_blank by assumption.
    now rewrite Hl in Hk.
Qed.

(** ** Enum lookups *)

(** What the lookup [f] over [table] owes its caller: a key of the table
    is found whatever its letter case and the blanks around it, and a
    string whose lowered, trimmed form is no key is refused with a
    message that ends in the string itself. *)
Definition lookup_ok {E : Type} (table : list (string * E)) (complaint : string)
    (f : string -> result E) : Prop :=
  (forall k v k' ws1 ws2,
      In (k, v) table -> lower k' = k ->
      all_space ws1 = true -> all_space ws2 = true ->
      f (ws1 ++ k' ++ ws2) = Ok v) /\
  (forall s,
      dict_get String.eqb table (strip (lower s)) = None ->
      f s = Raise (ValueError (complaint ++ s))).

(** Every binding of the table is the one [dict_get] finds, and its key is
    already lowered and trimmed. *)
Definition table_ok {E : Type} (table : list (string * E)) : Prop :=
  forall k v, In (k, v) table ->
    dict_get String.eqb table k = Some v /\ strip k = k.

Lemma lookup_key_padded {E : Type} (table : list (string * E))
    (k : string) (v : E) (k' ws1 ws2 : string) :
  table_ok table -> In (k, v) table -> lower k' = k ->
  all_space ws1 = true -> all_space ws2 = true ->
  dict_get String.eqb table (strip (lower (ws1 ++ k' ++ ws2))) = Some v.
Proof.
  intros T I L H1 H2. destruct (T k v I) as [G S].
  rewrite !lower_append, L, !lower_blank by assumption.
  now rewrite strip_padded.
Qed.

Ltac table_cases :=
  intros k v I; simpl in I;
  repeat (destruct I as [I|I]; [inversion I; subst; split; reflexivity|]);
  contradiction.

Lemma SAMPLERS_ok : table_ok SAMPLERS.
Proof. table_cases. Qed.

Lemma GUIDANCE_PRESETS_ok : table_ok GUIDANCE_PRESETS.
Proof. table_cases. Qed.

Lemma COLOR_SPACES_ok : table_ok COLOR_SPACES.
Proof. table_cases. Qed.

Lemma BORDER_MODES_2D_ok : table_ok BORDER_MODES_2D.
Proof. table_cases. Qed.

Lemma BORDER_MODES_3D_ok : table_ok BORDER_MODES_3D.
Proof. table_cases. Qed.

(** The 3D table is the 2D table without ["wrap"]. *)
Lemma BORDER_MODES_3D_eq :
  BORDER_MODES_3D =
  [("replicate", BORDER_REPLICATE); ("reflect", BORDER_REFLECT); ("zero", BORDER_ZERO)].
Proof. reflexivity. Qed.

(** C8: in each lookup domain (sampler, guidance preset, colour-match
    space, 2D and 3D border mode) every key of the fixed table maps to its
    fixed enum value whatever the letter case of the input and the blanks
    around it, and every string whose lowered, trimmed form is not a key
    raises a [ValueError] whose message names that string. *)
Theorem enum_lookups_total_and_case_blind :
  lookup_ok SAMPLERS "invalid sampler: " get_sampler_from_str /\
  lookup_ok GUIDANCE_PRESETS "invalid guidance preset: " guidance_from_string /\
  lookup_ok COLOR_SPACES "invalid color space: " color_match_from_string /\
  lookup_ok BORDER_MODES_2D "invalid 2d border mode " border_mode_from_str_2d /\
  lookup_ok BORDER_MODES_3D "invalid 3d border mode " border_mode_from_str_3d.
Proof.
  repeat split.
  all: try (intros k v k' ws1 ws2 I L H1 H2;
            unfold get_sampler_from_str, guidance_from_string,
              color_match_from_string, border_mode_from_str_2d,
              border_mode_from_str_3d;
            first
              [ rewrite (lookup_key_padded _ k v k' ws1 ws2 SAMPLERS_ok I L H1 H2)
              | rewrite (lookup_key_padded _ k v k' ws1 ws2 GUIDANCE_PRESETS_ok I L H1 H2)
              | rewrite (lookup_key_padded _ k v k' ws1 ws2 COLOR_SPACES_ok I L H1 H2)
              | rewrite (lookup_key_padded _ k v k' ws1 ws2 BORDER_MODES_2D_ok I L H1 H2)
              | rewrite (lookup_key_padded _ k v k' ws1 ws2 BORDER_MODES_3D_ok I L H1 H2) ];
            reflexivity).
  all: intros s N;
       unfold get_sampler_from_str, guidance_from_string,
         color_match_from_string, border_mode_from_str_2d,
         border_mode_from_str_3d;
       rewrite N; reflexivity.
Qed.

(** The lookups at work: mixed case and blanks, the key ["plms"], and the
    mode that only the 2D table has. *)
Lemma enum_lookups_witness :
  get_sampler_from_str "  K_Euler_Ancestral " = Ok SAMPLER_K_EULER_ANCESTRAL /\
  get_sampler_from_str "PLMS" = Ok SAMPLER_DDPM /\
  border_mode_from_str_2d " Wrap" = Ok BORDER_WRAP /\
  border_mode_from_str_3d " Wrap" = Raise (ValueError "invalid 3d border mode  Wrap").
Proof.
  destruct enum_lookups_total_and_case_blind as (S & _ & _ & B2 & B3).
  split; [|split; [|split]].
  - apply (proj1 S "k_euler_ancestral" _ "K_Euler_Ancestral" "  " " ");
      first [reflexivity | simpl; tauto].
  - apply (proj1 S "plms" _ "PLMS" "" ""); first [reflexivity | simpl; tauto].
  - apply (proj1 B2 "wrap" _ "Wrap" " " ""); first [reflexivity | simpl; tauto].
  - apply (proj2 B3 " Wrap"). reflexivity.
Defined.

(** ** Filename builder *)

(** The budget [truncate_fit] leaves for the prompt. *)
Definition prompt_budget (prefix ext : string) (ts idx max : Z) : Z :=
  max - len prefix - len ("_" ++ str_of_int ts ++ "_" ++ str_of_int idx) - (len ext + 1).

Lemma substring_0_length (n : nat) (s : string) :
  (n <= String.length s)%nat -> String.length (substring 0 n s) = n.
Proof.
  revert n; induction s as [|c s IH]; intros [|n]; simpl; intros H;
    try reflexivity; try lia.
  rewrite IH; [reflexivity | lia].
Qed.

Lemma substring_0_all (n : nat) (s : string) :
  (String.length s <= n)%nat -> substring 0 n s = s.
Proof.
  revert n; induction s as [|c s IH]; intros [|n]; simpl; intros H;
    try reflexivity; try lia.
  rewrite IH; [reflexivity | lia].
Qed.

(** With a budget of zero or more the prompt is cut to the budget. *)
Lemma truncate_fit_within_budget (prefix prompt ext : string) (ts idx max : Z) :
  0 <= prompt_budget prefix ext ts idx max ->
  truncate_fit prefix prompt ext ts idx max =
  prefix ++ substring 0 (Z.to_nat (prompt_budget prefix ext ts idx max)) prompt
         ++ "_" ++ str_of_int ts ++ "_" ++ str_of_int idx ++ ext.
Proof.
  intros H. unfold truncate_fit, slice_to. fold (prompt_budget prefix ext ts idx max).
  destruct (Z.ltb_spec (prompt_budget prefix ext ts idx max) 0) as [L|G]; [lia|].
  rewrite !append_assoc. simpl. do 2 f_equal.
  destruct (Z.le_gt_cases (prompt_budget prefix ext ts idx max) (len prompt)) as [A|A].
  - now rewrite Z.min_l.
  - rewrite Z.min_r by lia. unfold len in *.
    rewrite Nat2Z.id, !substring_0_all; [reflexivity | lia | lia].
Qed.

(** C1 (the code against its own docstring): when the fixed parts of the
    name already exceed [max] the budget is negative, and the slice
    [prompt[:budget]] then drops that many characters from the END of the
    prompt instead of dropping the prompt.  A prompt longer than the
    overshoot therefore stays in the name, and the name is not
    [prefix + suffix + ext]. *)
Theorem truncate_fit_negative_budget_keeps_prompt
    (prefix prompt ext : string) (ts idx max : Z) :
  let budget := prompt_budget prefix ext ts idx max in
  budget < 0 -> - budget < len prompt ->
  let kept := substring 0 (Z.to_nat (len prompt + budget)) prompt in
  truncate_fit prefix prompt ext ts idx max =
    prefix ++ kept ++ "_" ++ str_of_int ts ++ "_" ++ str_of_int idx ++ ext /\
  len kept = len prompt + budget /\
  kept <> "".
Proof.
  intros budget Hneg Hlong kept.
  assert (len kept = len prompt + budget) as L.
  { unfold kept, len in *. rewrite substring_0_length; lia. }
  split; [|split; [exact L|]].
  - unfold truncate_fit, slice_to. fold (prompt_budget prefix ext ts idx max).
    fold budget. destruct (Z.ltb_spec budget 0) as [_|G]; [|lia].
    rewrite Z.max_l by lia. rewrite !append_assoc. simpl.
    unfold kept. now rewrite (Z.add_comm budget).
  - intros E. rewrite E in L. unfold len in L at 1. simpl in L. lia.
Qed.

(** The failing call: a budget of -5 against an 11-character prompt. *)
Lemma truncate_fit_negative_budget_witness :
  prompt_budget "a_" ".png" 12345 3 10 = -5 /\
  truncate_fit "a_" "hello world" ".png" 12345 3 10 = "a_hello _12345_3.png" /\
  truncate_fit "a_" "hello world" ".png" 12345 3 10 <> "a_" ++ "_12345_3" ++ ".png".
Proof.
  split; [reflexivity|].
  destruct (truncate_fit_negative_budget_keeps_prompt
              "a_" "hello world" ".png" 12345 3 10) as (E & _ & _);
    [reflexivity | reflexivity |].
  split; [exact E | rewrite E; discriminate].
Defined.

(** ** Float comparisons *)

Lemma SFcompare_swap (x y : spec_float) (c : comparison) :
  SFcompare y x = Some c -> SFcompare x y = Some (CompOpp c).
Proof.
  destruct x as [sx|sx| |sx mx ex], y as [sy|sy| |sy my ey]; simpl;
    intros H; inversion H; subst; clear H;
    try (destruct sx); try (destruct sy); try reflexivity.
  all: rewrite (Z.compare_antisym ey ex); destruct (ey ?= ex)%Z; simpl;
       try reflexivity.
  all: change (PosDef.Pos.compare_cont Eq mx my) with (Pos.compare mx my);
       change (PosDef.Pos.compare_cont Eq my mx) with (Pos.compare my mx);
       rewrite (Pos.compare_antisym my mx), ?CompOpp_involutive; reflexivity.
Qed.

(** [y <= x] excludes [x < y]. *)
Lemma leb_not_ltb (x y : float) : (y <=? x)%float = true -> (x <? y)%float = false.
Proof.
  rewrite FloatAxioms.leb_spec, FloatAxioms.ltb_spec. unfold SFleb, SFltb.
  destruct (SFcompare (Prim2SF y) (Prim2SF x)) as [c|] eqn:E; [|discriminate].
  rewrite (SFcompare_swap _ _ _ E). destruct c; simpl; congruence.
Qed.

(** A float that differs from itself is the undefined value. *)
Lemma isna_nan (x : float) : isna x = true -> Prim2SF x = S754_nan.
Proof.
  unfold isna. rewrite FloatAxioms.eqb_spec. unfold SFeqb.
  destruct (Prim2SF x) as [s|s| |s m e]; simpl; try discriminate; try reflexivity.
  - destruct s; discriminate.
  - rewrite Z.compare_refl.
    change (PosDef.Pos.compare_cont Eq m m) with (Pos.compare m m).
    rewrite Pos.compare_refl. destruct s; discriminate.
Qed.

Lemma isna_not_ltb_l (x y : float) : isna x = true -> (x <? y)%float = false.
Proof.
  intros H. rewrite FloatAxioms.ltb_spec, (isna_nan x H). reflexivity.
Qed.

Lemma isna_not_ltb_r (x y : float) : isna y = true -> (x <? y)%float = false.
Proof.
  intros H. rewrite FloatAxioms.ltb_spec, (isna_nan y H). unfold SFltb.
  destruct (Prim2SF x); reflexivity.
Qed.

(** Two floats are ordered one way or the other unless one is undefined. *)
Lemma ltb_or_leb_or_nan (x y : float) :
  (x <? y)%float = true \/ (y <=? x)%float = true \/ isna x = true \/ isna y = true.
Proof.
  unfold isna. rewrite !FloatAxioms.eqb_spec, FloatAxioms.leb_spec, FloatAxioms.ltb_spec.
  unfold SFleb, SFltb, SFeqb.
  destruct (SFcompare (Prim2SF y) (Prim2SF x)) as [c|] eqn:E.
  - rewrite (SFcompare_swap _ _ _ E). destruct c; simpl; auto.
  - destruct (Prim2SF x), (Prim2SF y); simpl in *; try discriminate; auto.
Qed.

(** ** The 3D warp builder *)

Section Warp3dFacts.
Variable str_of_float : float -> string.

Definition camera_volume_error (near far : float) : exn :=
  ValueError ("Invalid camera volume: must satisfy near < far, got near="
              ++ str_of_float near ++ ", far=" ++ str_of_float far).

Definition fov_error (fov : float) : exn :=
  ValueError ("Invalid camera volume: fov must be greater than 0, got fov="
              ++ str_of_float fov).

Lemma warp3d_op_near_far (dx dy dz rx ry rz near far fov : float) (border : string) :
  (near <? far)%float = false ->
  warp3d_op str_of_float dx dy dz rx ry rz near far fov border
  = Raise (camera_volume_error near far).
Proof. intros H. unfold warp3d_op. rewrite H. reflexivity. Qed.

Lemma warp3d_op_fov (dx dy dz rx ry rz near far fov : float) (border : string) :
  (near <? far)%float = true -> (0 <? fov)%float = false ->
  warp3d_op str_of_float dx dy dz rx ry rz near far fov border
  = Raise (fov_error fov).
Proof. intros H1 H2. unfold warp3d_op. rewrite H1, H2. reflexivity. Qed.

(** C6, amended: [warp3d_op] raises the camera-volume [ValueError]
    citing [near] and [far] when [near >= far] or either is undefined;
    failing that, it raises the [ValueError] citing [fov] when
    [fov <= 0] or [fov] is undefined; both without looking at [border].
    These cases and [near < far], [fov > 0] cover every input.  In the
    remaining case the result is what the 3D border lookup decides: for
    a 3D border mode, the 3D-warp operation whose ten fields are the
    arguments and the looked-up mode; for any other string, the lookup's
    own [ValueError]. *)
Theorem warp3d_op_checks_then_builds
    (dx dy dz rx ry rz near far fov : float) (border : string) :
  let r := warp3d_op str_of_float dx dy dz rx ry rz near far fov border in
  ((far <=? near)%float = true \/ isna near = true \/ isna far = true ->
     r = Raise (camera_volume_error near far)) /\
  ((near <? far)%float = true ->
   (fov <=? 0)%float = true \/ isna fov = true ->
     r = Raise (fov_error fov)) /\
  ((near <? far)%float = true -> (0 <? fov)%float = true ->
     match border_mode_from_str_3d border with
     | Ok mode =>
         r = Ok (warp3d {| border_mode := mode;
                           translate_x := dx; translate_y := dy; translate_z := dz;
                           rotate_x := rx; rotate_y := ry; rotate_z := rz;
                           near_plane := near; far_plane := far; fov := fov |})
     | Raise e => r = Raise e
     end) /\
  (((far <=? near)%float = true \/ isna near = true \/ isna far = true) \/
   ((near <? far)%float = true /\
    (((fov <=? 0)%float = true \/ isna fov = true) \/ (0 <? fov)%float = true))).
Proof.
  intros r. subst r. repeat apply conj.
  - intros [H|[H|H]]; apply warp3d_op_near_far;
      [now apply leb_not_ltb | now apply isna_not_ltb_l | now apply isna_not_ltb_r].
  - intros H1 [H|H]; apply warp3d_op_fov; try assumption;
      [now apply leb_not_ltb | now apply isna_not_ltb_r].
  - intros H1 H2. unfold warp3d_op. rewrite H1, H2. simpl.
    destruct (border_mode_from_str_3d border); reflexivity.
  - destruct (ltb_or_leb_or_nan near far) as [H|H]; [right|left; exact H].
    split; [exact H|].
    destruct (ltb_or_leb_or_nan 0 fov) as [G|[G|[G|G]]]; auto.
    discriminate G.
Qed.
End Warp3dFacts.

(** A stand-in for the interpreter's float formatting in the examples
    below, none of which turns on how a float is printed. *)
Definition unformatted (x : float) : string := "<float>".

(** A valid call, with all ten fields in the operation. *)
Lemma warp3d_op_witness :
  warp3d_op unformatted 1 2 3 4 5 6 0.5 100 30 " Zero"
  = Ok (warp3d {| border_mode := BORDER_ZERO;
                  translate_x := 1; translate_y := 2; translate_z := 3;
                  rotate_x := 4; rotate_y := 5; rotate_z := 6;
                  near_plane := 0.5; far_plane := 100; fov := 30 |}).
Proof.
  exact (proj1 (proj2 (proj2
    (warp3d_op_checks_then_builds unformatted 1 2 3 4 5 6 0.5 100 30 " Zero")))
    eq_refl eq_refl).
Defined.

(** C6 as stated fails twice over.  With [near < far] and [fov > 0] the
    2D-only mode ["wrap"] makes the call raise although neither
    [near >= far] nor [fov <= 0] holds; and an undefined [near] makes it
    raise although, again, neither comparison holds. *)
Lemma warp3d_op_counterexample :
  ((2 <=? 1)%float = false /\ (30 <=? 0)%float = false /\
   warp3d_op unformatted 0 0 0 0 0 0 1 2 30 "wrap"
   = Raise (ValueError "invalid 3d border mode wrap")) /\
  ((2 <=? nan)%float = false /\ (30 <=? 0)%float = false /\
   warp3d_op unformatted 0 0 0 0 0 0 nan 2 30 "zero"
   = Raise (camera_volume_error unformatted nan 2)).
Proof. repeat split. Qed.

(** ** The response loop of [image_xform] *)

Definition is_image (a : Artifact) : bool := ArtifactType_eqb (type a) ARTIFACT_IMAGE.
Definition is_mask (a : Artifact) : bool := ArtifactType_eqb (type a) ARTIFACT_MASK.

(** The artifacts of a response stream, in arrival order. *)
Definition arrivals (stream : list Answer) : list Artifact :=
  List.concat (map artifacts stream).

(** A message without the artifacts that are neither image nor mask. *)
Definition without_others (resp : Answer) : Answer :=
  {| artifacts := filter (fun a => is_image a || is_mask a) (artifacts resp) |}.

Definition multiple_masks : exn :=
  Exception
    "multiple masks returned in response, cliend implementaion currently assumes no more than one mask returned".

Lemma for_each_app {A S : Type} (body : S -> A -> result S) (xs ys : list A) (st : S) :
  for_each body (xs ++ ys)%list st = (st' <- for_each body xs st ;; for_each body ys st').
Proof.
  revert st; induction xs as [|x xs IH]; intros st; simpl; [reflexivity|].
  destruct (body st x); simpl; [apply IH | reflexivity].
Qed.

Section ImageXformFacts.
Variable ndarray : Type.
Variable image_to_png_bytes : ndarray -> bytes.
Variable imdecode : bytes -> result (option ndarray).

Local Abbreviation on_artifact := (on_artifact ndarray imdecode).
Local Abbreviation on_answer := (on_answer ndarray imdecode).

(** What the codec returns for the payload of [a], where it returns. *)
Definition decoded (a : Artifact) : option ndarray :=
  match imdecode (binary a) with
  | Ok im => im
  | Raise _ => None
  end.

(** The codec raises on no image or mask payload of [arts]. *)
Definition decodable (arts : list Artifact) : Prop :=
  forall a, In a arts -> is_image a || is_mask a = true ->
            exists im, imdecode (binary a) = Ok im.

(** The two loops are one loop over the artifacts in arrival order. *)
Lemma for_each_answer (stream : list Answer)
    (st : list (option ndarray) * option ndarray) :
  for_each on_answer stream st = for_each on_artifact (arrivals stream) st.
Proof.
  revert st; induction stream as [|resp stream IH]; intros st; [reflexivity|].
  unfold arrivals in *. simpl. rewrite for_each_app. unfold on_answer at 1.
  destruct (for_each on_artifact (artifacts resp) st); simpl; [apply IH | reflexivity].
Qed.

Lemma on_artifact_image (images : list (option ndarray)) (mask : option ndarray)
    (a : Artifact) :
  is_image a = true ->
  on_artifact (images, mask) a
  = (im <- imdecode (binary a) ;; Ok ((images ++ [im])%list, mask)).
Proof.
  unfold is_image, on_artifact. intros H. simpl. rewrite H. simpl.
  now destruct (imdecode (binary a)).
Qed.

Lemma on_artifact_mask (images : list (option ndarray)) (mask : option ndarray)
    (a : Artifact) :
  is_mask a = true ->
  on_artifact (images, mask) a
  = (im <- imdecode (binary a) ;;
     match mask with
     | Some _ => Raise multiple_masks
     | None => Ok (images, im)
     end).
Proof.
  unfold is_mask, on_artifact. intros H. simpl. rewrite H.
  destruct (type a); try discriminate H. simpl.
  now destruct (imdecode (binary a)).
Qed.

Lemma on_artifact_other (st : list (option ndarray) * option ndarray) (a : Artifact) :
  is_image a = false -> is_mask a = false -> on_artifact st a = Ok st.
Proof.
  unfold is_image, is_mask, on_artifact. destruct st as [images mask].
  intros H1 H2. simpl. now rewrite H1, H2.
Qed.

Lemma image_or_mask_or_other (a : Artifact) :
  (is_image a = true /\ is_mask a = false) \/
  (is_image a = false /\ is_mask a = true) \/
  (is_image a = false /\ is_mask a = false).
Proof. unfold is_image, is_mask. destruct (type a); simpl; auto. Qed.

(** The mask slot after the mask artifacts [masks], started at [mask]; a
    mask that arrives while the slot holds an array raises. *)
Fixpoint fill_slot (mask : option ndarray) (masks : list Artifact)
  : option (option ndarray) :=
  match masks with
  | [] => Some mask
  | m :: masks' =>
      match mask with
      | Some _ => None
      | None => fill_slot (decoded m) masks'
      end
  end.

(** What the loop makes of the artifacts [arts], started with the images
    [images] and the mask slot [mask], where the codec raises on none. *)
Definition collected (images : list (option ndarray)) (mask : option ndarray)
    (arts : list Artifact) : result (list (option ndarray) * option ndarray) :=
  match fill_slot mask (filter is_mask arts) with
  | Some slot => Ok ((images ++ map decoded (filter is_image arts))%list, slot)
  | None => Raise multiple_masks
  end.

Lemma for_each_collected (arts : list Artifact) (images : list (option ndarray))
    (mask : option ndarray) :
  decodable arts ->
  for_each on_artifact arts (images, mask) = collected images mask arts.
Proof.
  revert images mask; induction arts as [|a arts IH]; intros images mask D.
  - unfold collected. simpl. now rewrite app_nil_r.
  - assert (decodable arts) as D' by (intros b I; apply D; now right).
    change (for_each on_artifact (a :: arts) (images, mask))
      with (st' <- on_artifact (images, mask) a ;; for_each on_artifact arts st').
    unfold collected. cbn [filter].
    destruct (image_or_mask_or_other a) as [[I M]|[[I M]|[I M]]]; rewrite I, M.
    + destruct (D a (or_introl eq_refl)) as (im & E); [now rewrite I|].
      assert (decoded a = im) as Da by (unfold decoded; now rewrite E).
      rewrite on_artifact_image by assumption. rewrite E. cbn [bind].
      rewrite IH by assumption. unfold collected. cbn [map]. rewrite Da.
      now rewrite <- app_assoc.
    + destruct (D a (or_introl eq_refl)) as (im & E); [rewrite M; apply orb_true_r|].
      assert (decoded a = im) as Da by (unfold decoded; now rewrite E).
      rewrite on_artifact_mask by assumption. rewrite E.
      destruct mask; cbn [bind fill_slot]; [reflexivity|].
      rewrite IH by assumption. unfold collected. now rewrite Da.
    + rewrite on_artifact_other by assumption. cbn [bind]. now apply IH.
Qed.

Lemma fill_slot_last (earlier : list Artifact) (m : Artifact) :
  (forall m', In m' earlier -> decoded m' = None) ->
  fill_slot None (earlier ++ [m]) = Some (decoded m).
Proof.
  induction earlier as [|e earlier IH]; intros H; [reflexivity|].
  cbn [app fill_slot]. rewrite (H e (or_introl eq_refl)).
  apply IH. intros m' I. apply H. now right.
Qed.

Lemma fill_slot_raises (earlier later : list Artifact) (m : Artifact) :
  later <> [] -> decoded m <> None ->
  fill_slot None (earlier ++ m :: later) = None.
Proof.
  intros L D. induction earlier as [|e earlier IH]; cbn [app fill_slot].
  - destruct (decoded m); [|congruence]. destruct later; [congruence | reflexivity].
  - destruct (decoded e); [|exact IH]. now destruct (earlier ++ m :: later)%list eqn:E;
      [destruct earlier; discriminate E|].
Qed.

(** An artifact that is neither image nor mask is passed over. *)
Lemma for_each_relevant (arts : list Artifact)
    (st : list (option ndarray) * option ndarray) :
  for_each on_artifact arts st
  = for_each on_artifact (filter (fun a => is_image a || is_mask a) arts) st.
Proof.
  revert st; induction arts as [|a arts IH]; intros st; [reflexivity|].
  cbn [filter]. destruct (image_or_mask_or_other a) as [[I M]|[[I M]|[I M]]];
    rewrite I, M; cbn [orb for_each].
  - destruct (on_artifact st a); [apply IH | reflexivity].
  - destruct (on_artifact st a); [apply IH | reflexivity].
  - rewrite on_artifact_other by assumption. apply IH.
Qed.

Lemma filter_arrivals (f : Artifact -> bool) (stream : list Answer) :
  filter f (arrivals stream)
  = List.concat (map (fun resp => filter f (artifacts resp)) stream).
Proof.
  unfold arrivals. induction stream as [|r stream IH]; simpl; [reflexivity|].
  now rewrite filter_app, IH.
Qed.

Lemma arrivals_without_others (stream : list Answer) :
  arrivals (map without_others stream)
  = filter (fun a => is_image a || is_mask a) (arrivals stream).
Proof. rewrite filter_arrivals. unfold arrivals. now rewrite map_map. Qed.

Section Call.
Variable Generate : Request -> list Answer.
Variables (images : list ndarray) (ops : list TransformOperation)
          (engine_id : string).

(** The request [image_xform] sends. *)
Definition sent : Request :=
  mkRequest engine_id
    (map (fun image => image_to_prompt ndarray image_to_png_bytes image false) images)
    ops.

Lemma image_xform_loop :
  images <> [] ->
  image_xform ndarray image_to_png_bytes imdecode Generate images ops engine_id
  = for_each on_artifact (arrivals (Generate sent)) ([], None).
Proof.
  intros H. unfold image_xform.
  destruct (Nat.eqb_spec (List.length images) 0) as [E|_].
  - apply length_zero_iff_nil in E. contradiction.
  - fold sent. now rewrite for_each_answer.
Qed.

Lemma image_xform_collected :
  images <> [] -> decodable (arrivals (Generate sent)) ->
  image_xform ndarray image_to_png_bytes imdecode Generate images ops engine_id
  = collected [] None (arrivals (Generate sent)).
Proof.
  intros H D. rewrite image_xform_loop by assumption. now apply for_each_collected.
Qed.

End Call.

(** C9: an artifact that is neither image nor mask leaves the collected
    images and the mask slot as they are and raises nothing; so a call
    returns, or raises, exactly as it would had the stream carried no
    such artifact, and a stream of such artifacts alone yields no image
    and no mask. *)
Theorem image_xform_skips_other_artifacts
    (Generate : Request -> list Answer) (images : list ndarray)
    (ops : list TransformOperation) (engine_id : string) :
  (forall st a, is_image a = false -> is_mask a = false -> on_artifact st a = Ok st) /\
  image_xform ndarray image_to_png_bytes imdecode Generate images ops engine_id
  = image_xform ndarray image_to_png_bytes imdecode
      (fun rq => map without_others (Generate rq)) images ops engine_id /\
  (images <> [] ->
   (forall a, In a (arrivals (Generate (sent images ops engine_id))) ->
              is_image a = false /\ is_mask a = false) ->
   image_xform ndarray image_to_png_bytes imdecode Generate images ops engine_id
   = Ok ([], None)).
Proof.
  split; [exact on_artifact_other|]. split.
  - destruct images as [|i is'] eqn:E; [reflexivity|].
    rewrite !image_xform_loop by discriminate.
    rewrite arrivals_without_others. apply for_each_relevant.
  - intros H O. rewrite image_xform_loop by assumption. rewrite for_each_relevant.
    assert (filter (fun a => is_image a || is_mask a)
              (arrivals (Generate (sent images ops engine_id))) = []) as ->;
      [|reflexivity].
    induction (arrivals (Generate (sent images ops engine_id))) as [|a l IH];
      [reflexivity|]. cbn [filter].
    destruct (O a (or_introl eq_refl)) as [I M]. rewrite I, M. cbn [orb].
    apply IH. intros b Hb. apply O. now right.
Qed.
End ImageXformFacts.

(** The scenarios of the transform pipeline, with payloads standing for
    their own decoded images. *)
Definition image_artifact (b : bytes) : Artifact := mkArtifact ARTIFACT_IMAGE b.
Definition mask_artifact (b : bytes) : Artifact := mkArtifact ARTIFACT_MASK b.
Definition text_artifact (b : bytes) : Artifact := mkArtifact ARTIFACT_TEXT b.

(** A codec that reads every payload as itself. *)
Definition imdecode_all (b : bytes) : result (option bytes) := Ok (Some b).

(** A codec that raises on the empty payload, finds no picture in a
    payload that starts with a zero byte, and reads any other as
    itself. *)
Definition imdecode_some (b : bytes) : result (option bytes) :=
  match b with
  | [] => Raise (Exception "cv2.error")
  | Byte.x00 :: _ => Ok None
  | _ => Ok (Some b)
  end.

Definition two_images_one_mask : list Answer :=
  [ mkAnswer [image_artifact [Byte.x01]];
    mkAnswer [image_artifact [Byte.x02]; mask_artifact [Byte.x03]] ].

Definition two_masks_apart : list Answer :=
  [ mkAnswer [mask_artifact [Byte.x03]];
    mkAnswer [image_artifact [Byte.x01]; mask_artifact [Byte.x04]] ].

Definition unread_mask_first : list Answer :=
  [ mkAnswer [mask_artifact [Byte.x00]];
    mkAnswer [image_artifact [Byte.x01]; mask_artifact [Byte.x04]] ].

Lemma decodable_all (arts : list Artifact) : decodable bytes imdecode_all arts.
Proof. intros a _ _. now exists (Some (binary a)). Qed.



Definition images_among_others : list Answer :=
  [ mkAnswer [text_artifact [Byte.x09]; image_artifact [Byte.x01]];
    mkAnswer [mkArtifact ARTIFACT_LATENT [Byte.x08]; mask_artifact [Byte.x03];
              mkArtifact ARTIFACT_CLASSIFICATIONS []] ].

(** Text, latent and classification artifacts among an image and a mask:
    the image and the mask come back and nothing else does. *)
Lemma image_xform_skips_witness :
  image_xform bytes (fun b => b) imdecode_all (fun _ => images_among_others)
              [[Byte.x00]] [] "transform-server-v1"
  = Ok ([Some [Byte.x01]], Some [Byte.x03]).
Proof.
  rewrite (proj1 (proj2 (image_xform_skips_other_artifacts bytes (fun b => b)
              imdecode_all (fun _ => images_among_others) [[Byte.x00]] []
              "transform-server-v1"))).
  reflexivity.
Defined.

(** ** Keyframe expansion: the method *)

Definition method_rank (m : string) : nat :=
  if (m =? "Linear")%string then 1
  else if (m =? "Quadratic")%string then 2
  else if (m =? "Cubic")%string then 3
  else 0.

Lemma effective_method_other (m : string) (n : nat) :
  m <> "Cubic" -> m <> "Quadratic" -> effective_method m n = m.
Proof.
  intros C Q. unfold effective_method.
  apply String.eqb_neq in C. apply String.eqb_neq in Q.
  rewrite C. cbn [andb]. now rewrite Q.
Qed.

Section MethodFacts.
Variable interpolate : string -> Series -> result Series.

(** C3: [key_frame_inbetweens] degrades "Cubic" to "Quadratic" for three
    keyframes or fewer and "Quadratic" to "Linear" for two or fewer, so
    that "Cubic" ends as "Linear" for two or fewer; any other method is
    left alone and none is ever raised in degree; the method so chosen
    is the one handed, lowered, to the interpolation; and with two
    keyframes a request for "Cubic" returns what a request for "Linear"
    returns, whatever the interpolation routine. *)
Theorem key_frame_inbetweens_degrades_method :
  (forall n, effective_method "Cubic" n =
             if (n <=? 2)%nat then "Linear"
             else if (n <=? 3)%nat then "Quadratic" else "Cubic") /\
  (forall n, effective_method "Quadratic" n =
             if (n <=? 2)%nat then "Linear" else "Quadratic") /\
  (forall m n, m <> "Cubic" -> m <> "Quadratic" -> effective_method m n = m) /\
  (forall m n, (method_rank (effective_method m n) <= method_rank m)%nat) /\
  (forall key_frames max_frames integer interp_method,
      key_frame_inbetweens interpolate key_frames max_frames integer interp_method =
      (s <- clamp_ends (keyed_series key_frames max_frames) max_frames ;;
       s <- interpolate
              (lower (effective_method interp_method (List.length key_frames))) s ;;
       if integer then ints <- astype_int s ;; Ok (IntSeries ints)
       else Ok (FloatSeries s))) /\
  (forall key_frames max_frames integer,
      List.length key_frames = 2%nat ->
      key_frame_inbetweens interpolate key_frames max_frames integer "Cubic" =
      key_frame_inbetweens interpolate key_frames max_frames integer "Linear").
Proof.
  assert (forall n, effective_method "Cubic" n =
             if (n <=? 2)%nat then "Linear"
             else if (n <=? 3)%nat then "Quadratic" else "Cubic") as C.
  { intros n. unfold effective_method. simpl.
    destruct (Nat.leb_spec n 3), (Nat.leb_spec n 2); simpl; try reflexivity; lia. }
  assert (forall n, effective_method "Quadratic" n =
             if (n <=? 2)%nat then "Linear" else "Quadratic") as Q.
  { intros n. unfold effective_method. simpl. now destruct (n <=? 2)%nat. }
  repeat apply conj; try assumption.
  - exact effective_method_other.
  - intros m n. destruct (String.eqb_spec m "Cubic") as [->|NC].
    { rewrite C. destruct (n <=? 2)%nat; [|destruct (n <=? 3)%nat];
        vm_compute; lia. }
    destruct (String.eqb_spec m "Quadratic") as [->|NQ].
    { rewrite Q. destruct (n <=? 2)%nat; vm_compute; lia. }
    rewrite effective_method_other by assumption. lia.
  - reflexivity.
  - intros key_frames max_frames integer L. unfold key_frame_inbetweens.
    rewrite L, C. reflexivity.
Qed.
End MethodFacts.

(** Two keyframes and "Cubic": the linear routine is the one that runs,
    and the series is the one "Linear" gives. *)
Lemma key_frame_inbetweens_degrades_witness :
  key_frame_inbetweens interpolate_linear_only [(0, 0%float); (2, 1%float)] 3 false "Cubic"
  = key_frame_inbetweens interpolate_linear_only [(0, 0%float); (2, 1%float)] 3 false "Linear"
  /\
  key_frame_inbetweens interpolate_linear_only [(0, 0%float); (2, 1%float)] 3 false "Linear"
  = Ok (FloatSeries [(0, 0%float); (1, 0.5%float); (2, 1%float)]).
Proof.
  split; [|reflexivity].
  apply (proj2 (proj2 (proj2 (proj2 (proj2
    (key_frame_inbetweens_degrades_method interpolate_linear_only)))))).
  reflexivity.
Defined.

(** ** Dictionaries keyed by integers *)

Lemma dict_get_set (V : Type) (d : list (Z * V)) (k j : Z) (v : V) :
  dict_get Z.eqb (dict_set Z.eqb d k v) j
  = if (j =? k) then Some v else dict_get Z.eqb d j.
Proof.
  induction d as [|[k' v'] d IH]; simpl.
  - rewrite (Z.eqb_sym k j). reflexivity.
  - destruct (Z.eqb_spec k' k) as [->|N]; simpl.
    + rewrite (Z.eqb_sym k j). now destruct (j =? k).
    + destruct (Z.eqb_spec k' j) as [->|N'].
      * destruct (Z.eqb_spec j k); [congruence | reflexivity].
      * exact IH.
Qed.

Lemma dict_set_not_empty (V : Type) (d : list (Z * V)) (k : Z) (v : V) :
  dict_set Z.eqb d k v <> [].
Proof.
  destruct d as [|[k' v'] d]; simpl; [discriminate|].
  destruct (k' =? k); discriminate.
Qed.

Lemma dict_get_In (V : Type) (d : list (Z * V)) (k : Z) (v : V) :
  dict_get Z.eqb d k = Some v -> In (k, v) d.
Proof.
  induction d as [|[k' v'] d IH]; simpl; [discriminate|].
  destruct (Z.eqb_spec k' k) as [->|N]; intros H.
  - inversion H; subst. now left.
  - right. auto.
Qed.

Lemma dict_In_get (V : Type) (d : list (Z * V)) (k : Z) (v : V) :
  NoDup (map fst d) -> In (k, v) d -> dict_get Z.eqb d k = Some v.
Proof.
  induction d as [|[k' v'] d IH]; simpl; [contradiction|].
  intros N [E|I]; inversion N as [|? ? N1 N2]; subst.
  - inversion E; subst. now rewrite Z.eqb_refl.
  - destruct (Z.eqb_spec k' k) as [->|_]; [|auto].
    exfalso. apply N1. apply (in_map fst) in I. exact I.
Qed.

Lemma dict_get_None (V : Type) (d : list (Z * V)) (k : Z) :
  dict_get Z.eqb d k = None <-> ~ In k (map fst d).
Proof.
  induction d as [|[k' v'] d IH]; simpl; [tauto|].
  destruct (Z.eqb_spec k' k) as [->|N].
  - split; [discriminate | intros H; exfalso; apply H; now left].
  - rewrite IH. tauto.
Qed.

(** Writing a list of bindings, one after the other. *)
Definition dict_write {V : Type} (d : list (Z * V)) (kvs : list (Z * V)) : list (Z * V) :=
  fold_left (fun d kv => dict_set Z.eqb d (fst kv) (snd kv)) kvs d.

Lemma dict_write_untouched (V : Type) (kvs d : list (Z * V)) (k : Z) :
  ~ In k (map fst kvs) ->
  dict_get Z.eqb (dict_write d kvs) k = dict_get Z.eqb d k.
Proof.
  unfold dict_write. revert d; induction kvs as [|[k' v'] kvs IH]; intros d H;
    simpl in *; [reflexivity|].
  rewrite IH by tauto. rewrite dict_get_set.
  destruct (Z.eqb_spec k k'); [exfalso; apply H; left; congruence | reflexivity].
Qed.

(** The last binding written for a key is the one that stays. *)
Lemma dict_write_last (V : Type) (l1 l2 d : list (Z * V)) (k : Z) (v : V) :
  ~ In k (map fst l2) ->
  dict_get Z.eqb (dict_write d (l1 ++ (k, v) :: l2)) k = Some v.
Proof.
  intros H. unfold dict_write. rewrite fold_left_app. simpl.
  fold (dict_write (dict_set Z.eqb (fold_left
    (fun d kv => dict_set Z.eqb d (fst kv) (snd kv)) l1 d) k v) l2).
  rewrite dict_write_untouched by assumption.
  now rewrite dict_get_set, Z.eqb_refl.
Qed.

(** Whatever is found after the writes was there before or was written. *)
Lemma dict_write_source (V : Type) (kvs d : list (Z * V)) (k : Z) (v : V) :
  dict_get Z.eqb (dict_write d kvs) k = Some v ->
  In (k, v) kvs \/ dict_get Z.eqb d k = Some v.
Proof.
  unfold dict_write. revert d; induction kvs as [|[k' v'] kvs IH]; intros d H;
    simpl in *; [now right|].
  apply IH in H as [H|H]; [left; now right|].
  rewrite dict_get_set in H. destruct (Z.eqb_spec k k') as [->|N].
  - inversion H; subst. left; now left.
  - now right.
Qed.

Lemma dict_write_keys (V : Type) (kvs d : list (Z * V)) (k : Z) :
  In k (map fst kvs) -> dict_get Z.eqb (dict_write d kvs) k <> None.
Proof.
  unfold dict_write. revert d; induction kvs as [|[k' v'] kvs IH]; intros d H;
    simpl in *; [contradiction|].
  destruct (in_dec Z.eq_dec k (map fst kvs)) as [I|N]; [now apply IH|].
  destruct H as [->|H]; [|contradiction].
  fold (dict_write (dict_set Z.eqb d k v') kvs).
  rewrite dict_write_untouched by assumption.
  rewrite dict_get_set, Z.eqb_refl. discriminate.
Qed.

Lemma dict_write_not_empty (V : Type) (kvs d : list (Z * V)) :
  kvs <> [] -> dict_write d kvs <> [].
Proof.
  destruct kvs as [|[k v] kvs]; [congruence|]. intros _ E.
  assert (dict_get Z.eqb (dict_write d ((k, v) :: kvs)) k <> None) as H
    by (apply dict_write_keys; now left).
  rewrite E in H. now apply H.
Qed.

(** ** Keyframe parsing: the pattern *)

Fixpoint all_digits (s : string) : bool :=
  match s with
  | EmptyString => true
  | String c s' => is_digit c && all_digits s'
  end.

Fixpoint no_rparen (s : string) : bool :=
  match s with
  | EmptyString => true
  | String c s' => negb (Ascii.eqb c ")") && no_rparen s'
  end.

(** [seg] has the form [<integer frame>:(<parameter text>)]: one digit or
    more, a colon, blanks if any, and the parameter between parentheses. *)
Definition segment (frame param seg : string) : Prop :=
  exists ws, seg = frame ++ ":" ++ ws ++ "(" ++ param ++ ")" /\
             frame <> "" /\ all_digits frame = true /\ all_space ws = true.

(** [s] contains a segment of that form. *)
Definition has_segment (s : string) : Prop :=
  exists pre frame param seg post, s = pre ++ seg ++ post /\ segment frame param seg.

Lemma span_all (p : ascii -> bool) (a : string) (c : ascii) (rest : string)
    (all : string -> bool) :
  (forall x s, all (String x s) = p x && all s) ->
  all a = true -> p c = false ->
  span p (a ++ String c rest) = (a, String c rest).
Proof.
  intros Hall. induction a as [|x a IH]; simpl; intros A C.
  - now rewrite C.
  - rewrite Hall in A. apply andb_prop in A as [Hx Ha]. rewrite Hx.
    now rewrite IH.
Qed.

Lemma span_sound (p : ascii -> bool) (s a b : string) (all : string -> bool) :
  all "" = true -> (forall x s, all (String x s) = p x && all s) ->
  span p s = (a, b) -> s = a ++ b /\ all a = true.
Proof.
  intros H0 Hall. revert a b; induction s as [|c s IH]; simpl; intros a b H.
  - inversion H; subst. now split.
  - destruct (p c) eqn:P.
    + destruct (span p s) as [a' b'] eqn:E. inversion H; subst.
      destruct (IH _ _ eq_refl) as [-> A]. split; [reflexivity|].
      now rewrite Hall, P, A.
    + inversion H; subst. now split.
Qed.

Lemma until_rparen_sound (s a b : string) :
  until_rparen s = Some (a, b) -> s = a ++ ")" ++ b /\ no_rparen a = true.
Proof.
  revert a b; induction s as [|c s IH]; simpl; intros a b H; [discriminate|].
  destruct (Ascii.eqb_spec c ")") as [->|N].
  - inversion H; subst. now split.
  - destruct (until_rparen s) as [[a' b']|] eqn:E; [|discriminate].
    inversion H; subst. destruct (IH _ _ eq_refl) as [-> A].
    split; [reflexivity|]. simpl. rewrite A.
    apply Ascii.eqb_neq in N. now rewrite N.
Qed.

Lemma until_rparen_finds (a b : string) : until_rparen (a ++ ")" ++ b) <> None.
Proof.
  induction a as [|c a IH]; simpl in *; [discriminate|].
  destruct (Ascii.eqb c ")"); [discriminate|].
  destruct (until_rparen (a ++ String ")" b)) as [[x y]|];
    [discriminate | exact IH].
Qed.

(** A match consumes exactly one segment. *)
Lemma match_here_sound (s frame param r : string) :
  match_here s = Some (frame, param, r) ->
  exists seg, s = seg ++ r /\ segment frame param seg /\ no_rparen param = true.
Proof.
  unfold match_here. destruct (span is_digit s) as [f r1] eqn:E1.
  apply (span_sound is_digit s f r1 all_digits) in E1 as [-> D];
    [|reflexivity|reflexivity].
  destruct f as [|c0 f]; [discriminate|].
  destruct r1 as [|c r1]; [discriminate|].
  destruct (Ascii.eqb_spec c ":") as [->|N].
  2:{ destruct c as [[] [] [] [] [] [] [] []]; try discriminate; congruence. }
  destruct (span is_space r1) as [ws r2] eqn:E2.
  apply (span_sound is_space r1 ws r2 all_space) in E2 as [-> W];
    [|reflexivity|reflexivity].
  destruct r2 as [|c2 r2]; [discriminate|].
  destruct (Ascii.eqb_spec c2 "(") as [->|N].
  2:{ destruct c2 as [[] [] [] [] [] [] [] []]; try discriminate; congruence. }
  destruct (until_rparen r2) as [[p r3]|] eqn:E3; [|discriminate].
  apply until_rparen_sound in E3 as [-> P].
  intros H; inversion H; subst.
  exists (String c0 f ++ ":" ++ ws ++ "(" ++ param ++ ")"). split; [|split].
  - rewrite !append_assoc. reflexivity.
  - exists ws. repeat split; [discriminate | assumption | assumption].
  - assumption.
Qed.

(** Where a segment starts, a match starts. *)
Lemma match_here_complete (frame param seg post : string) :
  segment frame param seg -> match_here (seg ++ post) <> None.
Proof.
  intros (ws & -> & F & D & W). unfold match_here.
  rewrite !append_assoc. simpl.
  rewrite (span_all is_digit frame ":" _ all_digits);
    [|reflexivity|assumption|reflexivity].
  destruct frame as [|c0 f]; [congruence|].
  rewrite (span_all is_space ws "(" _ all_space);
    [|reflexivity|assumption|reflexivity].
  pose proof (until_rparen_finds param post) as U. simpl in U.
  destruct (until_rparen (param ++ String ")" post)) as [[x y]|];
    [discriminate | congruence].
Qed.

Lemma finditer_cons (c : ascii) (s : string) :
  finditer (String c s) =
  match match_here (String c s) with
  | Some (frame, param, r) => (frame, param) :: finditer r
  | None => finditer s
  end.
Proof.
  simp finditer. unfold inspect.
  generalize (@eq_refl _ (match_here (String c s))).
  generalize (match_here (String c s)) at 2 4 5.
  intros [[[f p] r]|] E; simp finditer; reflexivity.
Qed.

(** Every match the search reports is a segment of the string. *)
Lemma finditer_sound (s frame param : string) :
  In (frame, param) (finditer s) ->
  exists pre seg post, s = pre ++ seg ++ post /\ segment frame param seg.
Proof.
  remember (String.length s) as n eqn:L. revert s L.
  induction n as [n IH] using lt_wf_ind. intros s L I.
  destruct s as [|c s]; [simp finditer in I; contradiction|].
  rewrite finditer_cons in I.
  destruct (match_here (String c s)) as [[[f p] r]|] eqn:M.
  - pose proof (match_here_shorter _ _ _ _ M) as Sh.
    destruct (match_here_sound _ _ _ _ M) as (seg & E & Sg & _).
    destruct I as [I|I].
    + inversion I; subst. exists "", seg, r. split; [exact E | exact Sg].
    + destruct (IH (String.length r) ltac:(lia) r eq_refl I)
        as (pre & seg' & post & -> & Sg').
      exists (seg ++ pre), seg', post. split; [|exact Sg'].
      rewrite E. now rewrite !append_assoc.
  - destruct (IH (String.length s) ltac:(simpl in L; lia) s eq_refl I)
      as (pre & seg' & post & -> & Sg').
    exists (String c pre), seg', post. split; [reflexivity | exact Sg'].
Qed.

(** The search finds nothing exactly when the string holds no segment. *)
Lemma finditer_empty (s : string) : finditer s = [] <-> ~ has_segment s.
Proof.
  split.
  - intros E (pre & frame & param & seg & post & -> & Sg).
    induction pre as [|c pre IH].
    + simpl in E. pose proof (match_here_complete _ _ _ post Sg) as C.
      destruct Sg as (ws & -> & F & _). destruct frame as [|c0 f]; [congruence|].
      simpl in E, C. rewrite finditer_cons in E.
      destruct (match_here _) as [[[f' p] r]|]; [discriminate | congruence].
    + simpl in E. rewrite finditer_cons in E.
      destruct (match_here _) as [[[f' p] r]|]; [discriminate | auto].
  - intros N. destruct (finditer s) as [|[f p] l] eqn:E; [reflexivity|].
    exfalso. apply N.
    destruct (finditer_sound s f p) as (pre & seg & post & -> & Sg);
      [rewrite E; now left|].
    now exists pre, f, p, seg, post.
Qed.

(** ** Keyframe parsing: the map *)

Definition format_error : exn :=
  RuntimeError "Key Frame string not correctly formatted".

(** What is recorded for a parameter text. *)
Definition recorded {V : Type} (prompt_parser : option (string -> V)) (param : string)
  : param_value V :=
  match prompt_parser with
  | Some parser => Parsed (parser param)
  | None => Text param
  end.

(** The bindings the loop writes, in the order of the matches. *)
Definition bindings {V : Type} (prompt_parser : option (string -> V)) (s : string)
  : list (Z * param_value V) :=
  map (fun m => (int_of_digits (fst m), recorded prompt_parser (snd m))) (finditer s).

Lemma dict_set_keys (V : Type) (d : list (Z * V)) (k : Z) (v : V) :
  NoDup (map fst d) -> NoDup (map fst (dict_set Z.eqb d k v)).
Proof.
  induction d as [|[k' v'] d IH]; simpl; intros N.
  - constructor; [tauto | constructor].
  - inversion N as [|? ? N1 N2]; subst.
    destruct (Z.eqb_spec k' k) as [->|Ne]; simpl; [exact N|].
    constructor; [|auto]. intros I. apply N1.
    apply dict_get_None in N1. apply in_map_iff in I as ([j w] & E & I).
    simpl in E; subst j.
    assert (dict_get Z.eqb (dict_set Z.eqb d k v) k' <> None) as G.
    { rewrite dict_get_None. intros G. apply G. apply (in_map fst) in I. exact I. }
    rewrite dict_get_set in G. destruct (Z.eqb_spec k' k); [congruence|].
    congruence.
Qed.

Lemma dict_write_keys_unique (V : Type) (kvs d : list (Z * V)) :
  NoDup (map fst d) -> NoDup (map fst (dict_write d kvs)).
Proof.
  unfold dict_write. revert d; induction kvs as [|[k v] kvs IH]; intros d N;
    simpl; [exact N|].
  apply IH. now apply dict_set_keys.
Qed.

Lemma key_frame_parse_writes (V : Type) (s : string) (prompt_parser : option (string -> V)) :
  key_frame_parse s prompt_parser =
  match dict_write [] (bindings prompt_parser s) with
  | [] => if negb (len s =? 0) then Raise format_error else Ok []
  | frames => Ok frames
  end.
Proof.
  unfold key_frame_parse, bindings, dict_write.
  assert (forall l (d : list (Z * param_value V)),
    fold_left (fun frames match_object =>
                 match prompt_parser with
                 | Some parser =>
                     dict_set Z.eqb frames (int_of_digits (fst match_object))
                              (Parsed (parser (snd match_object)))
                 | None =>
                     dict_set Z.eqb frames (int_of_digits (fst match_object))
                              (Text (snd match_object))
                 end) l d
    = fold_left (fun d kv => dict_set Z.eqb d (fst kv) (snd kv))
        (map (fun m => (int_of_digits (fst m), recorded prompt_parser (snd m))) l) d)
    as F.
  { induction l as [|m l IH]; intros d; simpl; [reflexivity|].
    rewrite <- IH. unfold recorded. destruct prompt_parser; reflexivity. }
  rewrite F. destruct (fold_left _ _ _); reflexivity.
Qed.

Lemma len_zero (s : string) : (len s =? 0) = true <-> s = "".
Proof.
  unfold len. destruct s; simpl; split; intros H; try reflexivity;
    try discriminate.
Qed.

(** *** The frame index
    [int(frame)] against the numerals that [str] writes. *)

Fixpoint all_zero (s : string) : bool :=
  match s with
  | EmptyString => true
  | String c s' => Ascii.eqb c "0" && all_zero s'
  end.

(** [frame] is the decimal numeral of the integer [n], zero or more, as
    [str(n)] writes it, after leading zeros if any. *)
Definition reads_as (frame : string) (n : Z) : Prop :=
  0 <= n /\ exists zeros, all_zero zeros = true /\ frame = zeros ++ str_of_int n.

(** The digits of [frame] read after the value [acc]. *)
Definition digits_value (acc : Z) (frame : string) : Z :=
  fold_left (fun n c => 10 * n + Z.of_nat (code c - 48))
            (list_ascii_of_string frame) acc.

Lemma digits_value_uint (d a : Decimal.uint) :
  digits_value (Z.of_N (DecimalPos.Unsigned.of_lu a)) (NilEmpty.string_of_uint d)
  = Z.of_N (DecimalPos.Unsigned.of_lu (Decimal.revapp d a)).
Proof.
  revert a; induction d; intros a; [reflexivity| ..];
    cbn [NilEmpty.string_of_uint Decimal.revapp]; rewrite <- IHd;
    unfold digits_value; cbn [list_ascii_of_string fold_left]; f_equal;
    cbn [DecimalPos.Unsigned.of_lu];
    rewrite ?N2Z.inj_add, ?N2Z.inj_mul; vm_compute (Z.of_nat _); simpl (Z.of_N _); lia.
Qed.

Lemma int_of_digits_uint (d : Decimal.uint) :
  int_of_digits (NilEmpty.string_of_uint d) = Z.of_N (Pos.of_uint d).
Proof.
  rewrite DecimalPos.Unsigned.of_uint_alt. unfold Decimal.rev.
  apply (digits_value_uint d Decimal.Nil).
Qed.

Lemma int_of_digits_str (n : Z) : 0 <= n -> int_of_digits (str_of_int n) = n.
Proof.
  intros H. unfold str_of_int. destruct n as [|p|p]; [reflexivity| |lia].
  cbn [Z.to_int NilZero.string_of_int]. unfold NilZero.string_of_uint.
  pose proof (DecimalPos.Unsigned.to_uint_nonnil p) as NN.
  destruct (Pos.to_uint p) eqn:E; [congruence| ..]; rewrite <- E;
    now rewrite int_of_digits_uint, DecimalPos.Unsigned.of_to.
Qed.

Lemma digits_value_zeros (zeros frame : string) :
  all_zero zeros = true -> int_of_digits (zeros ++ frame) = int_of_digits frame.
Proof.
  unfold int_of_digits. induction zeros as [|c z IH]; simpl; [reflexivity|].
  intros H. apply andb_prop in H as [C Z]. apply Ascii.eqb_eq in C. subst c.
  now apply IH.
Qed.

Lemma reads_as_value (frame : string) (n : Z) :
  reads_as frame n -> int_of_digits frame = n.
Proof.
  intros (P & zeros & Z & ->). rewrite digits_value_zeros by exact Z.
  now apply int_of_digits_str.
Qed.

Lemma digits_uint (frame : string) :
  all_digits frame = true -> exists d, NilEmpty.uint_of_string frame = Some d.
Proof.
  induction frame as [|c f IH]; simpl; [now exists Decimal.Nil|].
  intros H. apply andb_prop in H as [C D]. destruct (IH D) as (d & ->).
  destruct c as [[] [] [] [] [] [] [] []]; try discriminate C; simpl; eauto.
Qed.

Lemma numeral_zeros (d : Decimal.uint) :
  d <> Decimal.Nil ->
  exists zeros, all_zero zeros = true /\
    NilEmpty.string_of_uint d = zeros ++ NilEmpty.string_of_uint (Decimal.unorm d).
Proof.
  induction d; intros N; try (exists ""; split; reflexivity); [congruence|].
  destruct d; try (exists "0"; split; reflexivity).
  - exists "". split; reflexivity.
  - destruct IHd as (zeros & Z & E); [discriminate|].
    exists (String "0" zeros). split; [exact Z|].
    cbn [NilEmpty.string_of_uint] in *. rewrite E. reflexivity.
Qed.

Lemma str_of_value (d : Decimal.uint) :
  str_of_int (Z.of_N (Pos.of_uint d)) = NilEmpty.string_of_uint (Decimal.unorm d).
Proof.
  unfold str_of_int.
  assert (Z.to_int (Z.of_N (Pos.of_uint d)) = Decimal.Pos (N.to_uint (Pos.of_uint d))) as ->.
  { now destruct (Pos.of_uint d). }
  rewrite DecimalPos.Unsigned.to_of. cbn [NilZero.string_of_int].
  unfold NilZero.string_of_uint, Decimal.unorm. now destruct (Decimal.nzhead d).
Qed.

Lemma value_reads_as (frame : string) :
  all_digits frame = true -> frame <> "" -> reads_as frame (int_of_digits frame).
Proof.
  intros D N. destruct (digits_uint frame D) as (d & U).
  pose proof (NilEmpty.sus _ _ U) as S.
  assert (d <> Decimal.Nil) as Nd by (intros ->; simpl in S; congruence).
  rewrite <- S, int_of_digits_uint. split; [lia|].
  destruct (numeral_zeros d Nd) as (zeros & Z & E).
  exists zeros. split; [exact Z|]. now rewrite str_of_value.
Qed.

(** *** The matches of the search
    What [re.finditer] returns for the pattern, said without the search:
    the segments found from left to right, each starting at the first
    place after the one before where a segment starts, and each with the
    shortest parameter. *)

(** A segment starts at the head of [s]. *)
Definition starts_segment (s : string) : Prop :=
  exists frame param seg post, s = seg ++ post /\ segment frame param seg.

Inductive scanned : string -> list (string * string) -> Prop :=
| scanned_end : scanned "" []
| scanned_skip (c : ascii) (s : string) (ms : list (string * string)) :
    ~ starts_segment (String c s) -> scanned s ms -> scanned (String c s) ms
| scanned_match (frame param seg post : string) (ms : list (string * string)) :
    segment frame param seg -> no_rparen param = true -> scanned post ms ->
    scanned (seg ++ post) ((frame, param) :: ms).

Lemma finditer_scanned (s : string) : scanned s (finditer s).
Proof.
  remember (String.length s) as n eqn:L. revert s L.
  induction n as [n IH] using lt_wf_ind. intros s L.
  destruct s as [|c s]; [simp finditer; constructor|].
  rewrite finditer_cons.
  destruct (match_here (String c s)) as [[[f p] r]|] eqn:M.
  - pose proof (match_here_shorter _ _ _ _ M) as Sh.
    destruct (match_here_sound _ _ _ _ M) as (seg & E & Sg & P).
    rewrite E. apply scanned_match; try assumption.
    apply (IH (String.length r)); [lia | reflexivity].
  - apply scanned_skip.
    + intros (frame & param & seg & post & E & Sg).
      apply (match_here_complete _ _ _ post) in Sg. rewrite <- E in Sg. congruence.
    + apply (IH (String.length s)); [simpl in L; lia | reflexivity].
Qed.

Section ParseFacts.
Context {V : Type}.
Variable prompt_parser : option (string -> V).

(** The outcome of a parse: the format error exactly when the string is
    not empty and holds no segment, no other error, the empty map for the
    empty string, and for a string with a segment a map whose keys are the
    frame indices of the matches and whose values come from them. *)
Lemma key_frame_parse_outcome (s : string) :
  (key_frame_parse s prompt_parser = Raise format_error <->
   s <> "" /\ ~ has_segment s) /\
  (forall e, key_frame_parse s prompt_parser = Raise e -> e = format_error) /\
  key_frame_parse "" prompt_parser = Ok [] /\
  (has_segment s ->
   exists frames,
     key_frame_parse s prompt_parser = Ok frames /\
     (forall frame param, In (frame, param) (finditer s) ->
        exists v, dict_get Z.eqb frames (int_of_digits frame) = Some v) /\
     (forall k v, dict_get Z.eqb frames k = Some v ->
        exists frame param,
          In (frame, param) (finditer s) /\ int_of_digits frame = k /\
          v = recorded prompt_parser param)) /\
  (forall frame param, In (frame, param) (finditer s) ->
     exists pre seg post, s = pre ++ seg ++ post /\ segment frame param seg).
Proof.
  rewrite key_frame_parse_writes.
  assert (finditer s = [] \/
          exists b bs, bindings prompt_parser s = b :: bs) as [E|(b & bs & B)].
  { unfold bindings. destruct (finditer s); [now left | right; simpl; eauto]. }
  - pose proof (proj1 (finditer_empty s) E) as NS.
    unfold bindings. rewrite E. simpl. split; [|split; [|split; [|split]]].
    + split.
      * destruct (len s =? 0) eqn:L; simpl; [discriminate|].
        intros _. split; [|exact NS]. intros ->. discriminate.
      * intros [Ne _]. destruct (len s =? 0) eqn:L; simpl; [|reflexivity].
        apply len_zero in L. contradiction.
    + intros e. destruct (len s =? 0); simpl; intros H; inversion H; reflexivity.
    + reflexivity.
    + intros H. contradiction.
    + intros frame param [].
  - assert (dict_write [] (bindings prompt_parser s) <> []) as NE
      by (apply dict_write_not_empty; rewrite B; discriminate).
    assert (has_segment s) as HS.
    { unfold bindings in B.
      destruct (finditer s) as [|[f p] l] eqn:E; [discriminate B|].
      destruct (finditer_sound s f p) as (pre & seg & post & -> & Sg);
        [rewrite E; now left|].
      now exists pre, f, p, seg, post. }
    destruct (dict_write [] (bindings prompt_parser s)) as [|kv frames] eqn:W;
      [congruence|].
    split; [|split; [|split; [|split]]].
    + split; [discriminate | tauto].
    + discriminate.
    + reflexivity.
    + intros _. exists (kv :: frames). split; [reflexivity|]. rewrite <- W. split.
      * intros frame param I.
        destruct (dict_get Z.eqb (dict_write [] (bindings prompt_parser s))
                    (int_of_digits frame)) as [v|] eqn:G; [eauto|].
        exfalso. revert G. apply dict_write_keys. unfold bindings.
        rewrite map_map. simpl. apply in_map_iff. exists (frame, param). now split.
      * intros k v G. apply dict_write_source in G as [G|G]; [|discriminate G].
        unfold bindings in G. apply in_map_iff in G as ([f p] & Eq & I).
        inversion Eq; subst. now exists f, p.
    + apply finditer_sound.
Qed.

Lemma key_frame_parse_returns (s : string) :
  has_segment s ->
  key_frame_parse s prompt_parser = Ok (dict_write [] (bindings prompt_parser s)).
Proof.
  intros H. rewrite key_frame_parse_writes.
  assert (bindings prompt_parser s <> []) as NE.
  { unfold bindings. destruct (finditer s) eqn:E; [|discriminate].
    apply finditer_empty in E. contradiction. }
  apply (dict_write_not_empty _ _ []) in NE.
  now destruct (dict_write [] (bindings prompt_parser s)).
Qed.

(** C7: [key_frame_parse] raises the format error exactly when the string
    is not empty and holds no segment of the form
    [<integer frame>:(<parameter text>)], and raises nothing else.  The
    empty string gives the empty map.  A string with a segment gives a
    map that holds, for every matched segment, its parameter (passed
    through the parser when there is one) under its frame index, unless a
    later match has the same index; and the map holds nothing else.  The
    matches are the segments of the string found from left to right, none
    overlapping another, and the frame index of a match is the integer
    whose decimal numeral its digits are, leading zeros set aside. *)
Theorem key_frame_parse_format_error (s : string) :
  (key_frame_parse s prompt_parser = Raise format_error <->
   s <> "" /\ ~ has_segment s) /\
  (forall e, key_frame_parse s prompt_parser = Raise e -> e = format_error) /\
  key_frame_parse "" prompt_parser = Ok [] /\
  (has_segment s ->
   exists frames,
     key_frame_parse s prompt_parser = Ok frames /\
     (forall frame param, In (frame, param) (finditer s) ->
        exists v, dict_get Z.eqb frames (int_of_digits frame) = Some v) /\
     (forall earlier frame param later,
        finditer s = (earlier ++ (frame, param) :: later)%list ->
        (forall frame' param', In (frame', param') later ->
           int_of_digits frame' <> int_of_digits frame) ->
        dict_get Z.eqb frames (int_of_digits frame)
        = Some (recorded prompt_parser param)) /\
     (forall k v, dict_get Z.eqb frames k = Some v ->
        exists frame param,
          In (frame, param) (finditer s) /\ int_of_digits frame = k /\
          v = recorded prompt_parser param)) /\
  (forall frame param, In (frame, param) (finditer s) ->
     exists pre seg post, s = pre ++ seg ++ post /\ segment frame param seg) /\
  scanned s (finditer s) /\
  (forall frame n, all_digits frame = true -> frame <> "" ->
     (int_of_digits frame = n <-> reads_as frame n)).
Proof.
  destruct (key_frame_parse_outcome s) as (Err & Only & Empty & _ & Segs).
  split; [exact Err|]. split; [exact Only|]. split; [exact Empty|].
  split; [|split; [exact Segs|split; [apply finditer_scanned|]]].
  - intros H. exists (dict_write [] (bindings prompt_parser s)).
    split; [now apply key_frame_parse_returns|]. split; [|split].
    + intros frame param I.
      destruct (dict_get Z.eqb (dict_write [] (bindings prompt_parser s))
                  (int_of_digits frame)) as [v|] eqn:G; [eauto|].
      exfalso. revert G. apply dict_write_keys. unfold bindings.
      rewrite map_map. simpl. apply in_map_iff. exists (frame, param). now split.
    + intros earlier frame param later E Last. unfold bindings. rewrite E.
      rewrite map_app. cbn [map fst snd]. apply dict_write_last.
      rewrite map_map. simpl. intros I.
      apply in_map_iff in I as ([f p] & Eq & I). simpl in Eq.
      now apply (Last f p I).
    + intros k v G. apply dict_write_source in G as [G|G]; [|discriminate G].
      unfold bindings in G. apply in_map_iff in G as ([f p] & Eq & I).
      inversion Eq; subst. now exists f, p.
  - intros frame n D NE. split.
    + intros <-. now apply value_reads_as.
    + apply reads_as_value.
Qed.

(** C10: when a frame index occurs in several matched segments, the map
    holds for it the parameter of the last of them and nothing of the
    earlier ones: the indices of the map are pairwise distinct, and the
    value under an index is that of the rightmost match carrying it. *)
Theorem key_frame_parse_last_segment_wins
    (s : string) (earlier later : list (string * string)) (frame param : string) :
  finditer s = (earlier ++ (frame, param) :: later)%list ->
  (forall frame' param', In (frame', param') later ->
     int_of_digits frame' <> int_of_digits frame) ->
  exists frames,
    key_frame_parse s prompt_parser = Ok frames /\
    NoDup (map fst frames) /\
    dict_get Z.eqb frames (int_of_digits frame) = Some (recorded prompt_parser param).
Proof.
  intros E L. rewrite key_frame_parse_writes.
  assert (dict_get Z.eqb (dict_write [] (bindings prompt_parser s)) (int_of_digits frame)
          = Some (recorded prompt_parser param)) as G.
  { unfold bindings. rewrite E, map_app. simpl. apply dict_write_last.
    rewrite map_map. simpl. intros I. apply in_map_iff in I as ([f p] & Eq & I).
    simpl in Eq. now apply (L f p). }
  pose proof (dict_write_keys_unique _ (bindings prompt_parser s) [] (NoDup_nil _)) as N.
  destruct (dict_write [] (bindings prompt_parser s)) as [|kv frames] eqn:W;
    [discriminate G|].
  exists (kv :: frames). now repeat split.
Qed.
End ParseFacts.

(** Three segments, the first and the last for frame 0 (the last written
    with a leading zero): the map keeps ["b"] for frame 0. *)
Lemma key_frame_parse_last_segment_witness :
  exists frames,
    @key_frame_parse nat "0:(a) 7:(x) 00:(b)" None = Ok frames /\
    NoDup (map fst frames) /\
    dict_get Z.eqb frames 0 = Some (Text "b").
Proof.
  apply (key_frame_parse_last_segment_wins (V := nat) None "0:(a) 7:(x) 00:(b)"
           [("0", "a"); ("7", "x")] [] "00" "b").
  - reflexivity.
  - intros f p [].
Defined.

(** A string without a segment raises.  A string with two segments among
    other text gives the map of the two, the numeral ["012"] read as 12,
    and nothing else. *)
Lemma key_frame_parse_format_witness :
  @key_frame_parse nat "0:1.0, 10:5.0" None = Raise format_error /\
  exists frames,
    @key_frame_parse nat "zoom 7:(x), 012: (y)" None = Ok frames /\
    dict_get Z.eqb frames 7 = Some (Text "x") /\
    dict_get Z.eqb frames 12 = Some (Text "y") /\
    (forall k v, dict_get Z.eqb frames k = Some v -> k = 7 \/ k = 12) /\
    reads_as "012" 12.
Proof.
  split.
  - apply (proj1 (key_frame_parse_format_error (V := nat) None "0:1.0, 10:5.0")).
    split; [discriminate|]. apply finditer_empty. reflexivity.
  - destruct (key_frame_parse_format_error (V := nat) None "zoom 7:(x), 012: (y)")
      as (_ & _ & _ & Map & _ & _ & Index).
    destruct Map as (frames & E & _ & Rec & Src).
    + exists "zoom ", "7", "x", "7:(x)", ", 012: (y)". split; [reflexivity|].
      exists "". repeat split. discriminate.
    + exists frames. split; [exact E|]. split; [|split; [|split]].
      * apply (Rec [] "7" "x" [("012", "y")]); [reflexivity|].
        intros f p [Eq|[]]. inversion Eq. discriminate.
      * apply (Rec [("7", "x")] "012" "y" []); [reflexivity|].
        intros f p [].
      * intros k v G. destruct (Src k v G) as (f & p & I & <- & _).
        destruct I as [Eq|[Eq|[]]]; inversion Eq; [now left | now right].
      * apply (Index "012" 12); [reflexivity | discriminate | reflexivity].
Defined.

(** ** Parsing, then expansion *)

(** The numeric map out of a parsed one. *)
Definition parsed_frames {V : Type} (frames : list (Z * param_value V)) : list (Z * V) :=
  flat_map (fun kv => match snd kv with
                      | Parsed v => [(fst kv, v)]
                      | Text _ => []
                      end) frames.

Fixpoint strictly_increasing (vs : list float) : bool :=
  match vs with
  | a :: (b :: _) as rest => (a <? b)%float && strictly_increasing rest
  | _ => true
  end.

(** C5: with a parser that reads ["1.0"] as 1.0 and ["5.0"] as 5.0, the
    string ["0:(1.0) 10:(5.0)"] parses to the map {0: 1.0, 10: 5.0}, and
    that map, expanded over 11 frames by linear interpolation, is a series
    of length 11 over the frames 0..10 whose values increase strictly from
    1.0 at frame 0 to 5.0 at frame 10. *)
Theorem key_frame_parse_then_inbetweens (parser : string -> float) :
  parser "1.0" = 1%float -> parser "5.0" = 5%float ->
  exists frames out,
    key_frame_parse "0:(1.0) 10:(5.0)" (Some parser) = Ok frames /\
    frames = [(0, Parsed 1%float); (10, Parsed 5%float)] /\
    key_frame_inbetweens interpolate_linear_only (parsed_frames frames) 11 false "Linear"
    = Ok (FloatSeries out) /\
    List.length out = 11%nat /\
    map fst out = [0; 1; 2; 3; 4; 5; 6; 7; 8; 9; 10] /\
    dict_get Z.eqb out 0 = Some 1%float /\
    dict_get Z.eqb out 10 = Some 5%float /\
    strictly_increasing (map snd out) = true.
Proof.
  intros H1 H5.
  assert (key_frame_parse "0:(1.0) 10:(5.0)" (Some parser)
          = Ok [(0, Parsed (parser "1.0")); (10, Parsed (parser "5.0"))]) as P
    by reflexivity.
  rewrite H1, H5 in P.
  eexists. eexists. split; [exact P|]. split; [reflexivity|].
  split; [vm_compute; reflexivity|].
  repeat split.
Qed.

(** A parser for the two numerals of the example. *)
Definition two_numerals (param : string) : float :=
  if (param =? "1.0")%string then 1%float
  else if (param =? "5.0")%string then 5%float
  else nan.

Lemma key_frame_parse_then_inbetweens_witness :
  exists frames out,
    key_frame_parse "0:(1.0) 10:(5.0)" (Some two_numerals) = Ok frames /\
    frames = [(0, Parsed 1%float); (10, Parsed 5%float)] /\
    key_frame_inbetweens interpolate_linear_only (parsed_frames frames) 11 false "Linear"
    = Ok (FloatSeries out) /\
    List.length out = 11%nat /\
    map fst out = [0; 1; 2; 3; 4; 5; 6; 7; 8; 9; 10] /\
    dict_get Z.eqb out 0 = Some 1%float /\
    dict_get Z.eqb out 10 = Some 5%float /\
    strictly_increasing (map snd out) = true.
Proof.
  exact (key_frame_parse_then_inbetweens two_numerals eq_refl eq_refl).
Defined.

(** ** Keyframe expansion: the ends *)

(** Each label stands in relation [R] to all the labels after it. *)
Fixpoint ordered (R : Z -> Z -> Prop) (l : list Z) : Prop :=
  match l with
  | [] => True
  | a :: l' => (forall b, In b l' -> R a b) /\ ordered R l'
  end.

Lemma ordered_app (R : Z -> Z -> Prop) (l1 l2 : list Z) :
  ordered R l1 -> ordered R l2 -> (forall a b, In a l1 -> In b l2 -> R a b) ->
  ordered R (l1 ++ l2).
Proof.
  induction l1 as [|a l1 IH]; simpl; intros O1 O2 H; [exact O2|].
  destruct O1 as [Oa O1]. split.
  - intros b I. apply in_app_or in I as [I|I]; auto.
  - apply IH; auto.
Qed.

Lemma ordered_rev (R : Z -> Z -> Prop) (l : list Z) :
  ordered R l -> ordered (fun a b => R b a) (rev l).
Proof.
  induction l as [|a l IH]; simpl; [tauto|]. intros [Oa O].
  apply ordered_app.
  - now apply IH.
  - simpl. split; [intros b []|exact I].
  - intros x b Ix [<-|[]]. apply Oa. now apply in_rev.
Qed.

Definition frames_upto (max_frames : Z) : list Z :=
  map Z.of_nat (seq 0 (Z.to_nat max_frames)).

Lemma frames_upto_in (max_frames k : Z) :
  In k (frames_upto max_frames) <-> 0 <= k < max_frames.
Proof.
  unfold frames_upto. rewrite in_map_iff. split.
  - intros (n & <- & I). apply in_seq in I. lia.
  - intros H. exists (Z.to_nat k). split; [lia|]. apply in_seq. lia.
Qed.

Lemma ordered_range (a n : nat) : ordered Z.lt (map Z.of_nat (seq a n)).
Proof.
  revert a; induction n as [|n IH]; intros a; simpl; [exact I|].
  split; [|apply IH]. intros b H. apply in_map_iff in H as (m & <- & H).
  apply in_seq in H. lia.
Qed.

Lemma ordered_lt_NoDup (l : list Z) : ordered Z.lt l -> NoDup l.
Proof.
  induction l as [|a l IH]; simpl; intros H; constructor.
  - intros I. apply (proj1 H) in I. lia.
  - apply IH, H.
Qed.

Lemma frames_upto_NoDup (max_frames : Z) : NoDup (frames_upto max_frames).
Proof. apply ordered_lt_NoDup, ordered_range. Qed.

(** In a series whose labels are ordered by an asymmetric [R], the first
    defined entry is the defined entry that is least for [R]. *)
Lemma first_valid_extreme (R : Z -> Z -> Prop) (s : Series) (k : Z) (v : float) :
  (forall a b, R a b -> R b a -> False) ->
  ordered R (map fst s) ->
  In (k, v) s -> isna v = false ->
  (forall j w, In (j, w) s -> isna w = false -> j = k \/ R k j) ->
  first_valid_index s = Some k.
Proof.
  intros A. induction s as [|[i x] s IH]; simpl; intros O I D M;
    [contradiction|].
  destruct O as [O1 O2]. destruct (isna x) eqn:X.
  - destruct I as [I|I]; [inversion I; subst; congruence|].
    apply IH; try assumption.
    intros j w Ij Dj. apply (M j w); [now right | exact Dj].
  - f_equal. destruct I as [I|I]; [now inversion I|].
    assert (R i k) as Rik by (apply O1; apply (in_map fst) in I; exact I).
    destruct (M i x (or_introl eq_refl) X) as [->|Rki]; [reflexivity|].
    exfalso. eauto.
Qed.

Lemma dict_set_labels (V : Type) (d : list (Z * V)) (k : Z) (v : V) :
  In k (map fst d) -> map fst (dict_set Z.eqb d k v) = map fst d.
Proof.
  induction d as [|[k' v'] d IH]; simpl; [contradiction|].
  destruct (Z.eqb_spec k' k) as [->|N]; [reflexivity|].
  intros [E|I]; [congruence|]. simpl. now rewrite IH.
Qed.

Lemma dict_write_labels (V : Type) (kvs d : list (Z * V)) :
  (forall k, In k (map fst kvs) -> In k (map fst d)) ->
  map fst (dict_write d kvs) = map fst d.
Proof.
  unfold dict_write. revert d; induction kvs as [|[k v] kvs IH]; intros d H;
    simpl in *; [reflexivity|].
  rewrite IH.
  - apply dict_set_labels. auto.
  - intros j I. rewrite dict_set_labels by auto. auto.
Qed.

Lemma dict_write_get (V : Type) (kvs d : list (Z * V)) (i : Z) :
  NoDup (map fst kvs) ->
  dict_get Z.eqb (dict_write d kvs) i =
  match dict_get Z.eqb kvs i with
  | Some v => Some v
  | None => dict_get Z.eqb d i
  end.
Proof.
  intros N. destruct (dict_get Z.eqb kvs i) as [v|] eqn:G.
  - apply dict_get_In in G. destruct (in_split _ _ G) as (l1 & l2 & ->).
    apply dict_write_last. rewrite map_app in N. simpl in N.
    apply NoDup_remove_2 in N. intros I. apply N. apply in_or_app. now right.
  - apply dict_write_untouched. now apply dict_get_None.
Qed.

Lemma series_nan_labels (max_frames : Z) :
  map fst (series_nan max_frames) = frames_upto max_frames.
Proof. unfold series_nan, frames_upto. now rewrite map_map. Qed.

Lemma series_nan_values (max_frames i : Z) (v : float) :
  In (i, v) (series_nan max_frames) -> v = nan.
Proof.
  unfold series_nan. intros H. apply in_map_iff in H as (n & E & _). congruence.
Qed.

Section KeyedSeries.
Variables (key_frames : list (Z * float)) (max_frames : Z).
Hypothesis keys_unique : NoDup (map fst key_frames).
Hypothesis keys_in_range : forall k v, In (k, v) key_frames -> 0 <= k < max_frames.

Lemma keyed_series_labels :
  map fst (keyed_series key_frames max_frames) = frames_upto max_frames.
Proof.
  unfold keyed_series. fold (dict_write (series_nan max_frames) key_frames).
  rewrite dict_write_labels; [apply series_nan_labels|].
  intros k I. rewrite series_nan_labels. apply frames_upto_in.
  apply in_map_iff in I as ([k' v] & <- & I). eauto.
Qed.

Lemma keyed_series_has (k : Z) (v : float) :
  In (k, v) key_frames -> In (k, v) (keyed_series key_frames max_frames).
Proof.
  intros I. apply dict_get_In. unfold keyed_series.
  fold (dict_write (series_nan max_frames) key_frames).
  rewrite dict_write_get by assumption. now rewrite (dict_In_get _ _ _ _ keys_unique I).
Qed.

Lemma keyed_series_defined (j : Z) (w : float) :
  In (j, w) (keyed_series key_frames max_frames) -> isna w = false ->
  In (j, w) key_frames.
Proof.
  intros I D. apply dict_In_get in I;
    [|rewrite keyed_series_labels; apply frames_upto_NoDup].
  unfold keyed_series in I. fold (dict_write (series_nan max_frames) key_frames) in I.
  rewrite dict_write_get in I by assumption.
  destruct (dict_get Z.eqb key_frames j) as [v|] eqn:G.
  - inversion I; subst. now apply dict_get_In.
  - apply dict_get_In, series_nan_values in I. subst. discriminate D.
Qed.
End KeyedSeries.

(** What [clamp_ends] makes of a series over the frames below
    [max_frames] whose lowest defined frame is [kmin] and whose highest is
    [kmax]. *)
Lemma clamp_ends_spec (s : Series) (max_frames kmin kmax : Z) (vmin vmax : float) :
  2 <= max_frames ->
  map fst s = frames_upto max_frames ->
  In (kmin, vmin) s -> isna vmin = false ->
  (forall j w, In (j, w) s -> isna w = false -> kmin <= j) ->
  In (kmax, vmax) s -> isna vmax = false ->
  (forall j w, In (j, w) s -> isna w = false -> j <= kmax) ->
  exists s',
    clamp_ends s max_frames = Ok s' /\
    map fst s' = frames_upto max_frames /\
    forall i, dict_get Z.eqb s' i =
              if i =? max_frames - 1 then Some vmax
              else if i =? 0 then Some vmin
              else dict_get Z.eqb s i.
Proof.
  intros M L Imin Dmin Hmin Imax Dmax Hmax.
  assert (NoDup (map fst s)) as N by (rewrite L; apply frames_upto_NoDup).
  assert (forall k v, In (k, v) s -> 0 <= k < max_frames) as R.
  { intros k v I. apply frames_upto_in. rewrite <- L.
    apply (in_map fst) in I. exact I. }
  unfold clamp_ends.
  rewrite (first_valid_extreme Z.lt s kmin vmin); try assumption; try lia.
  2:{ rewrite L. apply ordered_range. }
  2:{ intros j w I D. specialize (Hmin j w I D). lia. }
  unfold series_at at 1. rewrite (dict_In_get _ _ _ _ N Imin). simpl.
  set (s1 := dict_set Z.eqb s 0 vmin).
  assert (map fst s1 = frames_upto max_frames) as L1.
  { unfold s1. rewrite dict_set_labels; [exact L|]. rewrite L.
    apply frames_upto_in. lia. }
  assert (NoDup (map fst s1)) as N1 by (rewrite L1; apply frames_upto_NoDup).
  assert (forall i, dict_get Z.eqb s1 i = if i =? 0 then Some vmin else dict_get Z.eqb s i)
    as G1 by (intros i; apply dict_get_set).
  assert (vmax = if kmax =? 0 then vmin else vmax) as V.
  { destruct (Z.eqb_spec kmax 0) as [E|_]; [|reflexivity].
    subst kmax. pose proof (Hmin 0 vmax Imax Dmax). pose proof (R kmin vmin Imin).
    assert (kmin = 0) by lia. subst kmin.
    pose proof (dict_In_get _ _ _ _ N Imin) as A.
    pose proof (dict_In_get _ _ _ _ N Imax) as B. congruence. }
  assert (dict_get Z.eqb s1 kmax = Some vmax) as Gmax.
  { rewrite G1. destruct (kmax =? 0); [congruence|]. now apply dict_In_get. }
  unfold last_valid_index.
  rewrite (first_valid_extreme (fun a b => b < a) (rev s1) kmax vmax);
    try assumption; try (intros; lia).
  2:{ rewrite map_rev, L1. apply ordered_rev, ordered_range. }
  2:{ apply -> in_rev. now apply dict_get_In. }
  2:{ intros j w I D. apply in_rev in I. apply dict_In_get in I; [|exact N1].
      rewrite G1 in I. destruct (Z.eqb_spec j 0) as [->|_].
      - pose proof (R kmax vmax Imax). lia.
      - apply dict_get_In in I. specialize (Hmax j w I D). lia. }
  unfold series_at. rewrite Gmax. simpl.
  eexists. split; [reflexivity|]. split.
  - rewrite dict_set_labels; [exact L1|]. rewrite L1. apply frames_upto_in. lia.
  - intros i. rewrite dict_get_set, G1. reflexivity.
Qed.

(** *** Keyframes that are no frames of the series *)

(** [k] is one of the frames [0..max_frames-1]. *)
Definition in_frames (max_frames k : Z) : bool := (0 <=? k) && (k <? max_frames).

(** The entries of the map whose index is none of the frames, in the
    order of the map. *)
Definition outside (key_frames : list (Z * float)) (max_frames : Z)
  : list (Z * float) :=
  filter (fun kv => negb (in_frames max_frames (fst kv))) key_frames.

(** The entries of a series that hold a defined value. *)
Definition defined_entries (s : Series) : Series :=
  filter (fun iv => negb (isna (snd iv))) s.

(** The keyframes with a defined value whose index is none of the frames,
    in the order of the map. *)
Definition beyond (key_frames : list (Z * float)) (max_frames : Z)
  : list (Z * float) :=
  defined_entries (outside key_frames max_frames).

(** The value of the series under a label after the writes [kvs]. *)
Definition written {V : Type} (kvs : list (Z * V)) (iv : Z * V) : Z * V :=
  (fst iv, match dict_get Z.eqb kvs (fst iv) with
           | Some v => v
           | None => snd iv
           end).

Lemma dict_set_fresh (V : Type) (d : list (Z * V)) (k : Z) (v : V) :
  ~ In k (map fst d) -> dict_set Z.eqb d k v = (d ++ [(k, v)])%list.
Proof.
  induction d as [|[k' v'] d IH]; simpl; intros H; [reflexivity|].
  destruct (Z.eqb_spec k' k) as [->|_]; [tauto|]. rewrite IH; tauto.
Qed.

Lemma written_ext (V : Type) (k : Z) (v : V) (kvs d : list (Z * V)) :
  ~ In k (map fst d) -> map (written ((k, v) :: kvs)) d = map (written kvs) d.
Proof.
  intros H. apply map_ext_in. intros [i x] I. unfold written. simpl.
  destruct (Z.eqb_spec k i) as [->|_]; [|reflexivity].
  exfalso. apply H. apply (in_map fst) in I. exact I.
Qed.

Lemma written_set (V : Type) (k : Z) (v : V) (kvs d : list (Z * V)) :
  NoDup (map fst d) -> ~ In k (map fst kvs) -> In k (map fst d) ->
  map (written kvs) (dict_set Z.eqb d k v) = map (written ((k, v) :: kvs)) d.
Proof.
  intros N F. induction d as [|[k' v'] d IH]; simpl; intros I; [contradiction|].
  inversion N as [|? ? N1 N2]; subst.
  destruct (Z.eqb_spec k' k) as [->|Ne].
  - simpl. rewrite written_ext by exact N1. f_equal. unfold written. simpl.
    rewrite Z.eqb_refl. apply dict_get_None in F. now rewrite F.
  - simpl. rewrite IH; [|exact N2 | destruct I; [congruence | assumption]].
    f_equal. unfold written. simpl.
    destruct (Z.eqb_spec k k'); [congruence | reflexivity].
Qed.

(** The writes of a map into a series: the labels of the series keep
    their places and take the values written under them, and the other
    keys follow in the order of the map. *)
Lemma dict_write_shape (V : Type) (kvs : list (Z * V)) :
  NoDup (map fst kvs) ->
  forall (d : list (Z * V)) (label : Z -> bool),
    NoDup (map fst d) ->
    (forall k, label k = true <-> In k (map fst d)) ->
    dict_write d kvs
    = (map (written kvs) d ++ filter (fun kv => negb (label (fst kv))) kvs)%list.
Proof.
  unfold dict_write. induction kvs as [|[k v] kvs IH]; intros N d label Nd L.
  - simpl. rewrite app_nil_r. rewrite <- (map_id d) at 1.
    apply map_ext. now intros [i x].
  - inversion N as [|? ? N1 N2]; subst. cbn [fold_left fst snd filter].
    destruct (label k) eqn:Lk; cbn [negb].
    + assert (In k (map fst d)) as I by (now apply L).
      rewrite (IH N2 _ label).
      * now rewrite written_set.
      * now apply dict_set_keys.
      * intros j. now rewrite dict_set_labels.
    + assert (~ In k (map fst d)) as I by (rewrite <- L; congruence).
      rewrite dict_set_fresh by exact I.
      rewrite (IH N2 _ (fun j => label j || (j =? k))).
      * rewrite map_app, written_ext by exact I. cbn [map].
        rewrite <- app_assoc. f_equal. cbn [app]. f_equal.
        -- unfold written. simpl. apply dict_get_None in N1. now rewrite N1.
        -- apply filter_ext_in. intros [j w] J. simpl.
           destruct (Z.eqb_spec j k) as [->|_]; [|now rewrite orb_false_r].
           exfalso. apply N1. apply (in_map fst) in J. exact J.
      * rewrite map_app. simpl. apply NoDup_app; [exact Nd | repeat constructor; tauto |].
        intros j J [<-|[]]. contradiction.
      * intros j. rewrite map_app, in_app_iff, orb_true_iff, L. simpl.
        rewrite Z.eqb_eq. intuition congruence.
Qed.

Section KeyedSeriesShape.
Variables (key_frames : list (Z * float)) (max_frames : Z).
Hypothesis keys_unique : NoDup (map fst key_frames).

(** The value the series holds at a frame before the ends are clamped. *)
Definition keyed (i : Z) : Z * float :=
  (i, match dict_get Z.eqb key_frames i with
      | Some v => v
      | None => nan
      end).

Lemma keyed_series_shape :
  keyed_series key_frames max_frames
  = (map keyed (frames_upto max_frames) ++ outside key_frames max_frames)%list.
Proof.
  unfold keyed_series. fold (dict_write (series_nan max_frames) key_frames).
  rewrite (dict_write_shape _ key_frames keys_unique _ (in_frames max_frames)).
  - f_equal. unfold series_nan, frames_upto. rewrite !map_map. reflexivity.
  - rewrite series_nan_labels. apply frames_upto_NoDup.
  - intros k. rewrite series_nan_labels, frames_upto_in. unfold in_frames.
    rewrite andb_true_iff, Z.leb_le, Z.ltb_lt. reflexivity.
Qed.

Lemma keyed_labels : map fst (map keyed (frames_upto max_frames)) = frames_upto max_frames.
Proof. rewrite map_map. simpl. apply map_id. Qed.

Lemma outside_spec (k : Z) (v : float) :
  In (k, v) (outside key_frames max_frames)
  <-> In (k, v) key_frames /\ ~ (0 <= k < max_frames).
Proof.
  unfold outside. rewrite filter_In. simpl. unfold in_frames.
  rewrite negb_true_iff, andb_false_iff, Z.leb_gt, Z.ltb_ge. intuition lia.
Qed.

Lemma keyed_series_all_labels :
  map fst (keyed_series key_frames max_frames)
  = (frames_upto max_frames ++ map fst (outside key_frames max_frames))%list.
Proof. now rewrite keyed_series_shape, map_app, keyed_labels. Qed.

Lemma keyed_series_NoDup : NoDup (map fst (keyed_series key_frames max_frames)).
Proof.
  rewrite keyed_series_all_labels. apply NoDup_app; [apply frames_upto_NoDup| |].
  - unfold outside. induction key_frames as [|[k v] l IH]; simpl; [constructor|].
    inversion keys_unique as [|? ? N1 N2]; subst.
    destruct (negb (in_frames max_frames k)); simpl; [|now apply IH].
    constructor; [|now apply IH]. intros I. apply N1.
    apply in_map_iff in I as ([j w] & E & I). simpl in E; subst j.
    apply filter_In in I as [I _]. apply (in_map fst) in I. exact I.
  - intros k I J. apply frames_upto_in in I.
    apply in_map_iff in J as ([j w] & E & J). simpl in E; subst j.
    apply outside_spec in J. tauto.
Qed.

Lemma keyed_series_holds (k : Z) (v : float) :
  In (k, v) key_frames -> In (k, v) (keyed_series key_frames max_frames).
Proof.
  intros I. rewrite keyed_series_shape. apply in_or_app.
  destruct (in_frames max_frames k) eqn:F.
  - left. apply in_map_iff. exists k. split.
    + unfold keyed. now rewrite (dict_In_get _ _ _ _ keys_unique I).
    + apply frames_upto_in. unfold in_frames in F.
      apply andb_prop in F as [A B]. apply Z.leb_le in A. apply Z.ltb_lt in B. lia.
  - right. unfold outside. apply filter_In. split; [exact I|]. simpl. now rewrite F.
Qed.

Lemma keyed_series_from_map (j : Z) (w : float) :
  In (j, w) (keyed_series key_frames max_frames) -> isna w = false ->
  In (j, w) key_frames.
Proof.
  rewrite keyed_series_shape. intros I D. apply in_app_or in I as [I|I].
  - apply in_map_iff in I as (i & E & _). unfold keyed in E.
    destruct (dict_get Z.eqb key_frames i) as [v|] eqn:G; inversion E; subst.
    + now apply dict_get_In.
    + discriminate D.
  - now apply outside_spec in I.
Qed.
End KeyedSeriesShape.

Lemma first_valid_index_app (s1 s2 : Series) :
  first_valid_index (s1 ++ s2)%list
  = match first_valid_index s1 with
    | Some k => Some k
    | None => first_valid_index s2
    end.
Proof.
  induction s1 as [|[i x] s1 IH]; simpl; [reflexivity|].
  now destruct (isna x).
Qed.

Lemma first_valid_index_defined (s : Series) :
  first_valid_index s = first_valid_index (defined_entries s).
Proof.
  induction s as [|[i x] s IH]; simpl; [reflexivity|].
  destruct (isna x) eqn:D; simpl; [exact IH | now rewrite D].
Qed.

Lemma ordered_filter (R : Z -> Z -> Prop) (f : Z * float -> bool) (l : list (Z * float)) :
  ordered R (map fst l) -> ordered R (map fst (filter f l)).
Proof.
  induction l as [|[k v] l IH]; simpl; [tauto|]. intros [O1 O2].
  destruct (f (k, v)); simpl; [|auto]. split; [|auto].
  intros b I. apply O1. apply in_map_iff in I as (kv & E & I).
  apply filter_In in I as [I _]. apply in_map_iff. now exists kv.
Qed.

(** Where the defined entries of a series come in the order of their
    labels, the first valid index is the lowest label with a defined
    value and the last valid index the highest. *)
Lemma valid_ends (s : Series) (kmin kmax : Z) (vmin vmax : float) :
  ordered Z.lt (map fst (defined_entries s)) ->
  In (kmin, vmin) s -> isna vmin = false ->
  (forall j w, In (j, w) s -> isna w = false -> kmin <= j) ->
  In (kmax, vmax) s -> isna vmax = false ->
  (forall j w, In (j, w) s -> isna w = false -> j <= kmax) ->
  first_valid_index s = Some kmin /\ last_valid_index s = Some kmax.
Proof.
  intros O Imin Dmin Hmin Imax Dmax Hmax.
  assert (forall k v, In (k, v) (defined_entries s) <-> In (k, v) s /\ isna v = false) as F.
  { intros k v. unfold defined_entries. rewrite filter_In. simpl.
    now rewrite negb_true_iff. }
  split.
  - rewrite first_valid_index_defined.
    apply (first_valid_extreme Z.lt _ kmin vmin); try assumption.
    + intros a b; lia.
    + now apply F.
    + intros j w I D. apply F in I as [I _]. specialize (Hmin j w I D). lia.
  - unfold last_valid_index. rewrite first_valid_index_defined.
    unfold defined_entries. rewrite filter_rev. fold (defined_entries s).
    apply (first_valid_extreme (fun a b => b < a) _ kmax vmax); try assumption.
    + intros a b; lia.
    + rewrite map_rev. now apply ordered_rev.
    + apply -> in_rev. now apply F.
    + intros j w I D. apply in_rev in I. apply F in I as [I _].
      specialize (Hmax j w I D). lia.
Qed.

(** What [clamp_ends] makes of a series that starts with frame 0 and has
    the frame [max_frames - 1], given the label and value of its first
    and of its last defined entry. *)
Lemma clamp_ends_general (x : float) (rest : Series) (max_frames kmin kmax : Z)
    (vmin vmax : float) :
  let s := (0, x) :: rest in
  2 <= max_frames ->
  NoDup (map fst s) -> In (max_frames - 1) (map fst s) ->
  first_valid_index s = Some kmin -> In (kmin, vmin) s -> isna vmin = false ->
  last_valid_index s = Some kmax -> In (kmax, vmax) s ->
  exists s',
    clamp_ends s max_frames = Ok s' /\
    map fst s' = map fst s /\
    forall i, dict_get Z.eqb s' i =
              if i =? max_frames - 1 then Some vmax
              else if i =? 0 then Some vmin
              else dict_get Z.eqb s i.
Proof.
  intros s M N L Fmin Imin Dmin Fmax Imax.
  unfold clamp_ends. rewrite Fmin.
  unfold series_at at 1. rewrite (dict_In_get _ _ _ _ N Imin). cbn [bind].
  set (s1 := dict_set Z.eqb s 0 vmin).
  assert (s1 = (0, vmin) :: rest) as E1 by reflexivity.
  assert (map fst s1 = map fst s) as L1 by (now rewrite E1).
  assert (forall i, dict_get Z.eqb s1 i = if i =? 0 then Some vmin else dict_get Z.eqb s i)
    as G1 by (intros i; apply dict_get_set).
  assert (last_valid_index s1 = Some kmax /\ dict_get Z.eqb s1 kmax = Some vmax)
    as [Fmax1 Gmax].
  { unfold last_valid_index in *. rewrite E1. subst s. cbn [rev] in *.
    rewrite first_valid_index_app in *. rewrite G1.
    destruct (first_valid_index (rev rest)) as [k|] eqn:Fr.
    - split; [exact Fmax|]. inversion Fmax; subst k.
      destruct (Z.eqb_spec kmax 0) as [->|_]; [|now apply dict_In_get].
      exfalso. clear -Fr N.
      assert (forall r k, first_valid_index r = Some k -> In k (map fst r)) as FI.
      { induction r as [|[i y] r IH]; simpl; [discriminate|]. intros k.
        destruct (isna y); [auto|]. intros H; inversion H; now left. }
      apply FI in Fr. rewrite map_rev in Fr. apply in_rev in Fr.
      inversion N; subst. contradiction.
    - simpl in Fmax. cbn [first_valid_index]. rewrite Dmin.
      destruct (isna x) eqn:Dx; [discriminate Fmax|]. inversion Fmax; subst kmax.
      split; [reflexivity|]. cbn [Z.eqb]. f_equal.
      simpl in Fmin. rewrite Dx in Fmin. inversion Fmin; subst kmin.
      pose proof (dict_In_get _ _ _ _ N Imin) as A.
      pose proof (dict_In_get _ _ _ _ N Imax) as B. congruence. }
  rewrite Fmax1. unfold series_at. rewrite Gmax. cbn [bind].
  eexists. split; [reflexivity|]. split.
  - rewrite dict_set_labels; [exact L1 | now rewrite L1].
  - intros i. rewrite dict_get_set, G1. reflexivity.
Qed.

Lemma dict_get_map_values (A B : Type) (f : A -> B) (s : list (Z * A)) (i : Z) :
  dict_get Z.eqb (map (fun iv => (fst iv, f (snd iv))) s) i
  = option_map f (dict_get Z.eqb s i).
Proof.
  induction s as [|[k v] s IH]; simpl; [reflexivity|].
  now destruct (k =? i).
Qed.

(** *** What the clamping owes to the interpolation, and the reverse *)

(** Some entry of the series is defined. *)
Definition defined_in (s : Series) : Prop :=
  exists i v, dict_get Z.eqb s i = Some v /\ isna v = false.

(** [s'] has the index of [s], and every defined entry of [s]. *)
Definition same_but_gaps (s s' : Series) : Prop :=
  map fst s' = map fst s /\
  forall i v, dict_get Z.eqb s i = Some v -> isna v = false ->
              dict_get Z.eqb s' i = Some v.

(** Every defined entry of the series is [v]. *)
Definition level (v : float) (s : Series) : Prop :=
  forall i x, In (i, x) s -> isna x = false -> x = v.

(** Every entry of the series equals [v] (as floats compare). *)
Definition constant (v : float) (s : Series) : Prop :=
  forall i x, In (i, x) s -> (x =? v)%float = true.

Section InterpolationContract.
Variable interpolate : string -> Series -> result Series.

(** Method [m] returns, for a series with a defined entry, a series that
    differs from it in the gaps only. *)
Definition fills_gaps (m : string) : Prop :=
  forall s, defined_in s ->
            exists s', interpolate m s = Ok s' /\ same_but_gaps s s'.

(** Method [m] makes a constant series of a level one. *)
Definition keeps_level (m : string) : Prop :=
  forall s s' v, interpolate m s = Ok s' -> defined_in s -> level v s ->
                 constant v s'.

End InterpolationContract.

(** *** The linear method fills gaps only *)

Lemma fill_linear_keeps (s : Series) (prev : option (Z * float)) (x : Z) :
  Forall2 (fun e v' => isna (snd e) = false -> v' = snd e)
          s (fill_linear prev x (map snd s)).
Proof.
  revert prev x; induction s as [|[i v] s IH]; intros prev x; simpl;
    [constructor|].
  destruct (isna v) eqn:D; constructor; simpl;
    first [apply IH | congruence | reflexivity].
Qed.

Lemma combine_same_but_gaps (s : Series) (vs : list float) :
  Forall2 (fun e v' => isna (snd e) = false -> v' = snd e) s vs ->
  same_but_gaps s (combine (map fst s) vs).
Proof.
  induction 1 as [|[i v] v' s vs H F IH]; simpl.
  - split; [reflexivity | discriminate].
  - destruct IH as [L G]. split; [simpl; now rewrite L|].
    intros j w. simpl. destruct (i =? j); [|apply G].
    intros E D. inversion E; subst. simpl in H. now rewrite H.
Qed.

Lemma interpolate_linear_gaps (s : Series) : same_but_gaps s (interpolate_linear s).
Proof. apply combine_same_but_gaps, fill_linear_keeps. Qed.

Lemma interpolate_linear_only_fills_gaps : fills_gaps interpolate_linear_only "linear".
Proof.
  intros s _. exists (interpolate_linear s).
  split; [reflexivity | apply interpolate_linear_gaps].
Qed.

(** *** The linear method keeps a level series level *)

Lemma SFeqb_refl_finite (s : bool) (m : positive) (e : Z) :
  SFeqb (S754_finite s m e) (S754_finite s m e) = true.
Proof.
  unfold SFeqb. simpl. rewrite Z.compare_refl.
  change (PosDef.Pos.compare_cont Eq m m) with (Pos.compare m m).
  rewrite Pos.compare_refl. now destruct s.
Qed.

(** On the line between two equal values [V], a point that is defined
    equals [V], whatever the spacing [D] and the offset [T]. *)
Lemma SF_level (V D T : spec_float) :
  SFeqb V V = true ->
  SFeqb (SF64add (SF64mul (SF64div (SF64sub V V) D) T) V)
        (SF64add (SF64mul (SF64div (SF64sub V V) D) T) V) = true ->
  SFeqb (SF64add (SF64mul (SF64div (SF64sub V V) D) T) V) V = true.
Proof.
  unfold SF64add, SF64mul, SF64div, SF64sub.
  destruct V as [s|s| |s m e]; try discriminate.
  - intros _. destruct s, D as [sd|sd| |sd md ed], T as [st|st| |st mt et];
      try destruct sd; try destruct st; simpl; auto.
  - intros _. destruct s; simpl; auto.
  - intros HV. cbn [SFsub]. rewrite Z.sub_diag. cbn [binary_normalize].
    destruct D as [sd|sd| |sd md ed], T as [st|st| |st mt et]; simpl; auto;
      intros _; apply SFeqb_refl_finite.
Qed.

Lemma float_level (v d t : float) :
  isna v = false -> isna ((v - v) / d * t + v)%float = false ->
  ((v - v) / d * t + v =? v)%float = true.
Proof.
  unfold isna. rewrite !negb_false_iff, !FloatAxioms.eqb_spec.
  rewrite FloatAxioms.add_spec, FloatAxioms.mul_spec, FloatAxioms.div_spec,
    FloatAxioms.sub_spec.
  apply SF_level.
Qed.

Lemma lerp_level (xa xb x : Z) (v : float) :
  isna v = false -> (lerp xa v xb v x =? v)%float = true.
Proof.
  intros D. assert ((v =? v)%float = true) as E
    by (unfold isna in D; now apply negb_false_iff in D).
  unfold lerp.
  destruct (isna (_ * (float_of_Z x - float_of_Z xa) + v)%float) eqn:Y1.
  - rewrite E, andb_true_r.
    destruct (isna (_ * (float_of_Z x - float_of_Z xb) + v)%float) eqn:Y2;
      [exact E | now apply float_level].
  - now apply float_level.
Qed.

Lemma next_valid_defined (vs : list float) (x xb : Z) (yb : float) :
  next_valid x vs = Some (xb, yb) -> In yb vs /\ isna yb = false.
Proof.
  revert x; induction vs as [|v vs IH]; simpl; intros x H; [discriminate|].
  destruct (isna v) eqn:D.
  - apply IH in H. tauto.
  - inversion H; subst. split; [now left | exact D].
Qed.

Lemma next_valid_none (vs : list float) (x : Z) (y : float) :
  next_valid x vs = None -> In y vs -> isna y = true.
Proof.
  revert x; induction vs as [|v vs IH]; simpl; intros x H I; [contradiction|].
  destruct (isna v) eqn:D; [|discriminate].
  destruct I as [<-|I]; [exact D | eauto].
Qed.

Lemma fill_linear_level (v : float) (vs : list float) (prev : option (Z * float)) (x : Z) :
  isna v = false ->
  (forall y, In y vs -> isna y = false -> y = v) ->
  (forall xa ya, prev = Some (xa, ya) -> ya = v) ->
  (prev <> None \/ exists y, In y vs /\ isna y = false) ->
  Forall (fun y => (y =? v)%float = true) (fill_linear prev x vs).
Proof.
  intros Dv. assert ((v =? v)%float = true) as E
    by (unfold isna in Dv; now apply negb_false_iff in Dv).
  revert prev x; induction vs as [|y vs IH]; intros prev x L P S; simpl;
    [constructor|].
  destruct (isna y) eqn:Dy.
  - constructor.
    + destruct prev as [[xa ya]|], (next_valid (x + 1) vs) as [[xb yb]|] eqn:Nx.
      * rewrite (P xa ya eq_refl).
        destruct (next_valid_defined _ _ _ _ Nx) as [I D].
        rewrite (L yb (or_intror I) D). now apply lerp_level.
      * now rewrite (P xa ya eq_refl).
      * destruct (next_valid_defined _ _ _ _ Nx) as [I D].
        now rewrite (L yb (or_intror I) D).
      * exfalso. destruct S as [S|(z & [<-|I] & D)]; [congruence| |].
        -- congruence.
        -- rewrite (next_valid_none _ _ z Nx I) in D. discriminate.
    + apply IH; [intros z Iz Dz; apply L; [now right | exact Dz] | exact P |].
      destruct S as [S|(z & [<-|I] & D)];
        [left; exact S | congruence | right; exists z; now split].
  - rewrite (L y (or_introl eq_refl) Dy). constructor; [exact E|].
    apply IH; [intros z Iz Dz; apply L; [now right | exact Dz] |
               | left; discriminate].
    intros xa ya H. now inversion H.
Qed.

Lemma interpolate_linear_level (s : Series) (v : float) :
  defined_in s -> level v s -> constant v (interpolate_linear s).
Proof.
  intros (i & w & G & D) L. apply dict_get_In in G.
  assert (w = v) as -> by (now apply (L i)).
  assert (Forall (fun y => (y =? v)%float = true) (fill_linear None 0 (map snd s))) as F.
  { apply fill_linear_level; [exact D | | discriminate |].
    - intros y I Dy. apply in_map_iff in I as ([j z] & <- & I). now apply (L j).
    - right. exists v. split; [|exact D]. apply (in_map snd) in G. exact G. }
  intros j x I. unfold interpolate_linear in I. apply in_combine_r in I.
  rewrite Forall_forall in F. now apply F.
Qed.

Lemma interpolate_linear_only_keeps_level (m : string) :
  keeps_level interpolate_linear_only m.
Proof.
  intros s s' v. unfold interpolate_linear_only.
  destruct (m =? "linear")%string; [|discriminate].
  intros H; inversion H; subst. apply interpolate_linear_level.
Qed.

(** A routine that stands for the spline methods in what a call needs of
    them: like them it refuses a series with too few defined entries for
    the order of the method, and it fills the gaps of any other series,
    here along straight lines. *)
Definition interpolate_by_order (method : string) (s : Series) : result Series :=
  let order := if (method =? "cubic")%string then 3%nat
               else if (method =? "quadratic")%string then 2%nat
               else 0%nat in
  if (order <? List.length (defined_entries s))%nat then Ok (interpolate_linear s)
  else Raise (ValueError "too few points for the order of the method").

(** Such a routine does not fill the gaps of every series. *)
Lemma interpolate_by_order_refuses : ~ fills_gaps interpolate_by_order "cubic".
Proof.
  intros F. destruct (F [(0, 1.5%float)]) as (s' & E & _); [|discriminate E].
  now exists 0, 1.5%float.
Qed.


(** The same call, evaluated: the series is constant. *)
Example single_keyframe_is_constant :
  key_frame_inbetweens interpolate_linear_only [(3, 1.5%float)] 6 false "Cubic"
  = Ok (FloatSeries [(0, 1.5%float); (1, 1.5%float); (2, 1.5%float);
                     (3, 1.5%float); (4, 1.5%float); (5, 1.5%float)]).
Proof. reflexivity. Qed.


(** * Further properties *)

(** ** Filename builder: what is kept and how long the name is *)

Lemma substring_0_prefix (n : nat) (s : string) :
  exists rest, s = substring 0 n s ++ rest.
Proof.
  revert n; induction s as [|c s IH]; intros [|n]; simpl.
  - now exists "".
  - now exists "".
  - now exists (String c s).
  - destruct (IH n) as (rest & E). exists rest. now rewrite <- E.
Qed.

(** Whatever the budget, [truncate_fit] leaves the prefix, the timestamp,
    the index and the extension as they are, and what it keeps of the
    prompt is an initial piece of it. *)
Theorem truncate_fit_keeps_fixed_parts (prefix prompt ext : string) (ts idx max : Z) :
  exists kept rest,
    prompt = kept ++ rest /\
    truncate_fit prefix prompt ext ts idx max
    = prefix ++ kept ++ ("_" ++ str_of_int ts ++ "_" ++ str_of_int idx) ++ ext.
Proof.
  unfold truncate_fit, slice_to.
  set (n := Z.to_nat _).
  destruct (substring_0_prefix n prompt) as (rest & E).
  exists (substring 0 n prompt), rest. split; [exact E | reflexivity].
Qed.

Lemma len_append (a b : string) : len (a ++ b) = len a + len b.
Proof. unfold len. rewrite length_append. lia. Qed.

(** With room for the prompt (a budget of zero or more): a prompt within
    the budget is kept whole; a longer one is cut so that the name is
    exactly [max - 1] characters long; either way the name is shorter
    than [max]. *)
Theorem truncate_fit_length (prefix prompt ext : string) (ts idx max : Z) :
  0 <= prompt_budget prefix ext ts idx max ->
  let name := truncate_fit prefix prompt ext ts idx max in
  (len prompt <= prompt_budget prefix ext ts idx max ->
   name = prefix ++ prompt ++ ("_" ++ str_of_int ts ++ "_" ++ str_of_int idx) ++ ext) /\
  (prompt_budget prefix ext ts idx max <= len prompt -> len name = max - 1) /\
  len name < max.
Proof.
  intros B name. subst name.
  rewrite truncate_fit_within_budget by assumption.
  set (b := prompt_budget prefix ext ts idx max) in *.
  assert (b = max - len prefix - len ("_" ++ str_of_int ts ++ "_" ++ str_of_int idx)
              - (len ext + 1)) as Eb by reflexivity.
  rewrite !len_append in Eb.
  split; [|split].
  - intros F. rewrite substring_0_all by (unfold len in F; lia).
    now rewrite !append_assoc.
  - intros F. rewrite !len_append.
    unfold len at 2. rewrite substring_0_length by (unfold len in F; lia). lia.
  - rewrite !len_append.
    destruct (Z.le_gt_cases b (len prompt)) as [F|F].
    + unfold len at 2. rewrite substring_0_length by (unfold len in F; lia). lia.
    + rewrite substring_0_all by (unfold len in F; lia). lia.
Qed.

(** The name of thirty characters at most for a long prompt: cut to 29. *)
Lemma truncate_fit_length_witness :
  truncate_fit "a_" "a very long prompt" ".png" 12345 3 30
    = "a_a very long pro_12345_3.png" /\
  len (truncate_fit "a_" "a very long prompt" ".png" 12345 3 30) = 30 - 1.
Proof.
  split; [reflexivity|].
  apply (truncate_fit_length "a_" "a very long prompt" ".png" 12345 3 30).
  - vm_compute. discriminate.
  - vm_compute. discriminate.
Defined.

(** ** Enum lookups: the two border tables, and names that do not alias *)

(** The key a lookup searches its table for. *)
Definition lookup_key (s : string) : string := strip (lower s).

(** Decides the comparisons of two literal keys. *)
Ltac decide_key_tests :=
  repeat match goal with
         | |- context [String.eqb ?a ?b] =>
             let r := eval vm_compute in (String.eqb a b) in
             first [ constr_eq r true; change (String.eqb a b) with true
                   | constr_eq r false; change (String.eqb a b) with false ]
         end;
  cbv iota.

(** Splits on which key of the table [k] is, if any. *)
Ltac lookup_cases k :=
  repeat match goal with
         | |- context [String.eqb ?key k] =>
             destruct (String.eqb_spec key k) as [<-|?];
             [decide_key_tests | cbv iota]
         end.

(** Every border name the 3D lookup accepts is accepted by the 2D lookup
    with the same mode, which is never [BORDER_WRAP]; every name the 2D
    lookup resolves to another mode than [BORDER_WRAP] is accepted by the
    3D lookup with that mode; and a name the 2D lookup resolves to
    [BORDER_WRAP] is refused by the 3D lookup. *)
Theorem border_modes_3d_are_2d_without_wrap (s : string) :
  (forall m, border_mode_from_str_3d s = Ok m ->
             border_mode_from_str_2d s = Ok m /\ m <> BORDER_WRAP) /\
  (forall m, border_mode_from_str_2d s = Ok m -> m <> BORDER_WRAP ->
             border_mode_from_str_3d s = Ok m) /\
  (border_mode_from_str_2d s = Ok BORDER_WRAP ->
   border_mode_from_str_3d s = Raise (ValueError ("invalid 3d border mode " ++ s))).
Proof.
  unfold border_mode_from_str_2d, border_mode_from_str_3d.
  rewrite BORDER_MODES_3D_eq. unfold BORDER_MODES_2D.
  fold (lookup_key s). generalize (lookup_key s) as k. intros k.
  cbn [dict_get]. repeat apply conj.
  - intros m. lookup_cases k; intros H; inversion H; subst;
      (split; [reflexivity | discriminate]).
  - intros m. lookup_cases k; intros H W; inversion H; subst;
      first [reflexivity | congruence].
  - lookup_cases k; intros H; first [discriminate H | reflexivity].
Qed.

Lemma border_modes_3d_witness :
  border_mode_from_str_2d "Reflect " = Ok BORDER_REFLECT /\
  border_mode_from_str_3d "Reflect " = Ok BORDER_REFLECT.
Proof.
  split; [reflexivity|].
  apply (proj1 (proj2 (border_modes_3d_are_2d_without_wrap "Reflect ")));
    [reflexivity | discriminate].
Defined.

(** Two strings that a lookup resolves to the same enum value are the
    same name up to letter case and surrounding blanks: no enum value has
    two names, in any of the five tables. *)
Theorem enum_names_do_not_alias (s1 s2 : string) :
  (forall v, get_sampler_from_str s1 = Ok v -> get_sampler_from_str s2 = Ok v ->
             lookup_key s1 = lookup_key s2) /\
  (forall v, guidance_from_string s1 = Ok v -> guidance_from_string s2 = Ok v ->
             lookup_key s1 = lookup_key s2) /\
  (forall v, color_match_from_string s1 = Ok v -> color_match_from_string s2 = Ok v ->
             lookup_key s1 = lookup_key s2) /\
  (forall v, border_mode_from_str_2d s1 = Ok v -> border_mode_from_str_2d s2 = Ok v ->
             lookup_key s1 = lookup_key s2) /\
  (forall v, border_mode_from_str_3d s1 = Ok v -> border_mode_from_str_3d s2 = Ok v ->
             lookup_key s1 = lookup_key s2).
Proof.
  unfold get_sampler_from_str, guidance_from_string, color_match_from_string,
    border_mode_from_str_2d, border_mode_from_str_3d.
  rewrite BORDER_MODES_3D_eq.
  unfold SAMPLERS, GUIDANCE_PRESETS, COLOR_SPACES, BORDER_MODES_2D.
  fold (lookup_key s1) (lookup_key s2).
  generalize (lookup_key s1) as k1, (lookup_key s2) as k2. intros k1 k2.
  cbn [dict_get].
  repeat apply conj; intros v;
    lookup_cases k1; intros H1; inversion H1; subst; clear H1;
    lookup_cases k2; intros H2; inversion H2; subst; reflexivity.
Qed.

Lemma enum_names_witness : lookup_key " K_LMS" = lookup_key "k_lms  ".
Proof.
  apply (proj1 (enum_names_do_not_alias " K_LMS" "k_lms  ") SAMPLER_K_LMS);
    reflexivity.
Defined.

(** ** The 2D warp builder *)

Lemma border_3d_then_2d (s : string) (m : BorderMode) :
  border_mode_from_str_3d s = Ok m -> border_mode_from_str_2d s = Ok m.
Proof.
  unfold border_mode_from_str_2d, border_mode_from_str_3d.
  rewrite BORDER_MODES_3D_eq. unfold BORDER_MODES_2D.
  generalize (strip (lower s)) as k. intros k. cbn [dict_get].
  lookup_cases k; intros H; inversion H; subst; reflexivity.
Qed.

(** [warp2d_op] checks nothing but the border name: whatever the four
    numbers, undefined ones included, it returns an operation exactly
    when the name, lowered and trimmed, is one of "replicate", "reflect",
    "wrap" and "zero"; that operation is the 2D-warp variant carrying the
    four numbers and the looked-up mode; for any other name it raises the
    2D lookup's [ValueError].  And a name with which [warp3d_op] builds an
    operation builds one with [warp2d_op] too, with the same border
    mode. *)
Theorem warp2d_op_checks_border_only (dx dy rotate scale : float) (border : string) :
  ((exists op, warp2d_op dx dy rotate scale border = Ok op) <->
   In (lookup_key border) ["replicate"; "reflect"; "wrap"; "zero"]) /\
  (forall op, warp2d_op dx dy rotate scale border = Ok op ->
     exists mode,
       border_mode_from_str_2d border = Ok mode /\
       op = warp2d {| warp2d_border_mode := mode;
                      warp2d_rotate := rotate;
                      warp2d_scale := scale;
                      warp2d_translate_x := dx;
                      warp2d_translate_y := dy |}) /\
  (forall e, warp2d_op dx dy rotate scale border = Raise e ->
     e = ValueError ("invalid 2d border mode " ++ border)) /\
  (forall str_of_float x y z rx ry rz near far fov w3,
     warp3d_op str_of_float x y z rx ry rz near far fov border = Ok (warp3d w3) ->
     exists w2, warp2d_op dx dy rotate scale border = Ok (warp2d w2) /\
                warp2d_border_mode w2 = border_mode w3).
Proof.
  split; [|split; [|split]].
  - unfold warp2d_op, border_mode_from_str_2d, BORDER_MODES_2D.
    fold (lookup_key border). generalize (lookup_key border) as k. intros k.
    cbn [dict_get]. split.
    + lookup_cases k; intros (op & H); simpl; first [tauto | discriminate H].
    + intros [<-|[<-|[<-|[<-|[]]]]]; simpl; eauto.
  - intros op. unfold warp2d_op.
    destruct (border_mode_from_str_2d border) as [mode|e]; simpl; intros H;
      inversion H; subst. now exists mode.
  - intros e. unfold warp2d_op, border_mode_from_str_2d.
    destruct (dict_get String.eqb BORDER_MODES_2D (strip (lower border)));
      simpl; intros H; inversion H; reflexivity.
  - intros str_of_float x y z rx ry rz near far fov w3. unfold warp3d_op.
    destruct (negb (near <? far)%float); [discriminate|].
    destruct (negb (0 <? fov)%float); [discriminate|].
    destruct (border_mode_from_str_3d border) as [mode|e] eqn:B; simpl;
      intros H; inversion H; subst. simpl.
    apply border_3d_then_2d in B.
    unfold warp2d_op. rewrite B. simpl. eexists. split; reflexivity.
Qed.

(** A 2D warp that wraps, with an undefined rotation. *)
Lemma warp2d_op_witness :
  exists mode,
    border_mode_from_str_2d " WRAP" = Ok mode /\
    warp2d {| warp2d_border_mode := BORDER_WRAP;
              warp2d_rotate := nan; warp2d_scale := 1;
              warp2d_translate_x := 0; warp2d_translate_y := 0 |}
    = warp2d {| warp2d_border_mode := mode;
                warp2d_rotate := nan; warp2d_scale := 1;
                warp2d_translate_x := 0; warp2d_translate_y := 0 |}.
Proof.
  apply (proj1 (proj2 (warp2d_op_checks_border_only 0 0 nan 1 " WRAP"))).
  reflexivity.
Defined.

(** ** Keyframe parsing: well-formed strings and the shape of the map *)

Fixpoint no_digit (s : string) : bool :=
  match s with
  | EmptyString => true
  | String c s' => negb (is_digit c) && no_digit s'
  end.

(** Text without a digit holds no start of a match. *)
Lemma finditer_skips (sep s : string) :
  no_digit sep = true -> finditer (sep ++ s) = finditer s.
Proof.
  induction sep as [|c sep IH]; simpl; [reflexivity|].
  intros H. apply andb_prop in H as [Hc Hs].
  rewrite finditer_cons. unfold match_here. simpl.
  apply negb_true_iff in Hc. rewrite Hc. auto.
Qed.

Lemma until_rparen_exact (param rest : string) :
  no_rparen param = true -> until_rparen (param ++ String ")" rest) = Some (param, rest).
Proof.
  induction param as [|c p IH]; simpl; [reflexivity|].
  intros H. apply andb_prop in H as [Hc Hp]. apply negb_true_iff in Hc.
  now rewrite Hc, IH.
Qed.

(** A segment at the start of the string is the first match, with its
    frame and its parameter as written. *)
Lemma finditer_segment (frame ws param rest : string) :
  frame <> "" -> all_digits frame = true -> all_space ws = true ->
  no_rparen param = true ->
  finditer (frame ++ ":" ++ ws ++ "(" ++ param ++ ")" ++ rest)
  = (frame, param) :: finditer rest.
Proof.
  intros F D W P.
  assert (match_here (frame ++ ":" ++ ws ++ "(" ++ param ++ ")" ++ rest)
          = Some (frame, param, rest)) as M.
  { unfold match_here. simpl.
    rewrite (span_all is_digit frame ":" _ all_digits);
      [|reflexivity|assumption|reflexivity].
    destruct frame as [|c0 f]; [congruence|].
    rewrite (span_all is_space ws "(" _ all_space);
      [|reflexivity|assumption|reflexivity].
    now rewrite until_rparen_exact. }
  destruct frame as [|c0 f]; [congruence|].
  simpl in *. rewrite finditer_cons. simpl. now rewrite M.
Qed.

(** One piece of a keyframe string: text without digits, then a segment. *)
Record piece : Type := mkPiece {
  piece_before : string;
  piece_frame : string;
  piece_blanks : string;
  piece_param : string
}.

Definition piece_ok (p : piece) : Prop :=
  no_digit (piece_before p) = true /\
  piece_frame p <> "" /\ all_digits (piece_frame p) = true /\
  all_space (piece_blanks p) = true /\
  no_rparen (piece_param p) = true.

(** The string made of the pieces and a last stretch of text. *)
Fixpoint keyframe_text (pieces : list piece) (after : string) : string :=
  match pieces with
  | [] => after
  | p :: ps =>
      piece_before p ++ piece_frame p ++ ":" ++ piece_blanks p ++ "("
        ++ piece_param p ++ ")" ++ keyframe_text ps after
  end.

Lemma finditer_keyframe_text (pieces : list piece) (after : string) :
  Forall piece_ok pieces -> no_digit after = true ->
  finditer (keyframe_text pieces after)
  = map (fun p => (piece_frame p, piece_param p)) pieces.
Proof.
  intros H A. induction H as [|p ps (B & F & D & W & P) _ IH];
    cbn [keyframe_text map].
  - rewrite <- (append_empty_r after). rewrite finditer_skips by assumption.
    now simp finditer.
  - rewrite finditer_skips by assumption.
    rewrite finditer_segment by assumption. now rewrite IH.
Qed.

Lemma dict_write_fresh (V : Type) (kvs d : list (Z * V)) :
  NoDup (map fst (d ++ kvs)) -> dict_write d kvs = (d ++ kvs)%list.
Proof.
  unfold dict_write. revert d; induction kvs as [|[k v] kvs IH]; intros d N; simpl.
  - now rewrite app_nil_r.
  - assert (dict_set Z.eqb d k v = (d ++ [(k, v)])%list) as E.
    { assert (~ In k (map fst d)) as NI.
      { rewrite map_app in N. simpl in N. apply NoDup_remove_2 in N.
        intros I. apply N. apply in_or_app. now left. }
      clear -NI. induction d as [|[k' v'] d IH]; simpl in *; [reflexivity|].
      destruct (Z.eqb_spec k' k) as [->|_]; [tauto|]. rewrite IH; tauto. }
    rewrite E, IH; rewrite <- app_assoc; [reflexivity | exact N].
Qed.

Section WellFormed.
Context {V : Type}.
Variable prompt_parser : option (string -> V).

(** A string of segments with distinct frame indices, each preceded by
    text without digits (none, blanks, commas, words) and the whole
    followed by such text, parses to the map of exactly those frames, in
    the order written, each with its parameter as written (or as parsed).
    The text around the segments is ignored. *)
Theorem key_frame_parse_well_formed (pieces : list piece) (after : string) :
  pieces <> [] ->
  Forall piece_ok pieces -> no_digit after = true ->
  NoDup (map (fun p => int_of_digits (piece_frame p)) pieces) ->
  key_frame_parse (keyframe_text pieces after) prompt_parser
  = Ok (map (fun p => (int_of_digits (piece_frame p),
                       recorded prompt_parser (piece_param p))) pieces).
Proof.
  intros NE H A N. rewrite key_frame_parse_writes. unfold bindings.
  rewrite finditer_keyframe_text by assumption. rewrite map_map. simpl.
  rewrite dict_write_fresh.
  - simpl. destruct pieces; [congruence | reflexivity].
  - simpl. now rewrite map_map.
Qed.
End WellFormed.

Lemma key_frame_parse_well_formed_witness :
  @key_frame_parse nat "zoom 0:(1.0),  10: (5.0); end" None
  = Ok [(0, Text "1.0"); (10, Text "5.0")].
Proof.
  apply (key_frame_parse_well_formed (V := nat) None
           [mkPiece "zoom " "0" "" "1.0"; mkPiece ",  " "10" " " "5.0"] "; end").
  - discriminate.
  - repeat constructor; discriminate.
  - reflexivity.
  - repeat constructor; simpl; intuition discriminate.
Defined.

(** Every match has a frame of digits and a parameter without [")"]. *)
Lemma finditer_groups (s frame param : string) :
  In (frame, param) (finditer s) ->
  all_digits frame = true /\ no_rparen param = true.
Proof.
  remember (String.length s) as n eqn:L. revert s L.
  induction n as [n IH] using lt_wf_ind. intros s L I.
  destruct s as [|c s]; [simp finditer in I; contradiction|].
  rewrite finditer_cons in I.
  destruct (match_here (String c s)) as [[[f p] r]|] eqn:M.
  - pose proof (match_here_shorter _ _ _ _ M) as Sh.
    destruct (match_here_sound _ _ _ _ M) as (seg & E & (ws & _ & _ & D & _) & P).
    destruct I as [I|I].
    + inversion I; subst. now split.
    + exact (IH (String.length r) ltac:(lia) r eq_refl I).
  - exact (IH (String.length s) ltac:(simpl in L; lia) s eq_refl I).
Qed.

Lemma int_of_digits_nonneg (frame : string) : 0 <= int_of_digits frame.
Proof.
  unfold int_of_digits.
  assert (forall l n, 0 <= n ->
            0 <= fold_left (fun n c => 10 * n + Z.of_nat (code c - 48)) l n) as F.
  { induction l as [|c l IH]; intros n H; cbn [fold_left]; [exact H|].
    apply IH. lia. }
  apply F. lia.
Qed.

Section ParsedMap.
Context {V : Type}.
Variable prompt_parser : option (string -> V).

Lemma key_frame_parse_entries (s : string) (frames : list (Z * param_value V))
    (k : Z) (v : param_value V) :
  key_frame_parse s prompt_parser = Ok frames -> In (k, v) frames ->
  exists frame param,
    In (frame, param) (finditer s) /\ k = int_of_digits frame /\
    v = recorded prompt_parser param.
Proof.
  rewrite key_frame_parse_writes. intros H I.
  assert (frames = dict_write [] (bindings prompt_parser s)) as ->.
  { destruct (dict_write [] (bindings prompt_parser s)) eqn:W.
    - destruct (negb (len s =? 0)); inversion H; reflexivity.
    - now inversion H. }
  apply dict_In_get in I; [|apply dict_write_keys_unique; constructor].
  apply dict_write_source in I as [I|I]; [|discriminate I].
  unfold bindings in I. apply in_map_iff in I as ([f p] & E & I).
  inversion E; subst. now exists f, p.
Qed.

(** The map of a parse that returns: it is empty for the empty string
    only; no frame index is negative, the pattern having no sign; and
    without a parser every value is the text between ["("] and the first
    [")"] after it, so that no value contains a [")"]. *)
Theorem key_frame_parse_map_shape (s : string) (frames : list (Z * param_value V)) :
  key_frame_parse s prompt_parser = Ok frames ->
  (frames = [] <-> s = "") /\
  (forall k v, In (k, v) frames -> 0 <= k) /\
  (prompt_parser = None ->
   forall k v, In (k, v) frames -> exists param, v = Text param /\ no_rparen param = true).
Proof.
  intros H. split; [|split].
  - split.
    + intros ->. rewrite key_frame_parse_writes in H.
      destruct (dict_write [] (bindings prompt_parser s)); [|discriminate H].
      destruct (len s =? 0) eqn:L; [|discriminate H]. now apply len_zero.
    + intros ->. rewrite key_frame_parse_writes in H. unfold bindings in H.
      simp finditer in H. simpl in H. now inversion H.
  - intros k v I.
    destruct (key_frame_parse_entries s frames k v H I) as (f & p & _ & -> & _).
    apply int_of_digits_nonneg.
  - intros N k v I.
    destruct (key_frame_parse_entries s frames k v H I) as (f & p & F & _ & ->).
    exists p. subst prompt_parser. split; [reflexivity|].
    now apply (finditer_groups s f p).
Qed.

(** Text without a digit in front of a string changes nothing of the
    outcome, when there is a string: a sign or a word before the first
    frame index is not read. *)
Theorem key_frame_parse_ignores_leading_text (sep s : string) :
  no_digit sep = true -> s <> "" ->
  key_frame_parse (sep ++ s) prompt_parser = key_frame_parse s prompt_parser.
Proof.
  intros D N. rewrite !key_frame_parse_writes. unfold bindings.
  rewrite finditer_skips by assumption.
  assert ((len (sep ++ s) =? 0) = false) as ->.
  { destruct (len (sep ++ s) =? 0) eqn:L; [|reflexivity].
    apply len_zero in L. destruct sep; simpl in L; [contradiction | discriminate]. }
  assert ((len s =? 0) = false) as ->; [|reflexivity].
  destruct (len s =? 0) eqn:L; [|reflexivity]. apply len_zero in L. contradiction.
Qed.
End ParsedMap.

Lemma key_frame_parse_map_shape_witness :
  ([(0, @Text nat "a(b")] = [] <-> "0:(a(b)c)" = "") /\
  (forall k v, In (k, v) [(0, @Text nat "a(b")] -> 0 <= k) /\
  (@None (string -> nat) = None ->
   forall k v, In (k, v) [(0, @Text nat "a(b")] ->
     exists param, v = Text param /\ no_rparen param = true).
Proof.
  apply (key_frame_parse_map_shape (V := nat) None "0:(a(b)c)"). reflexivity.
Defined.

Lemma key_frame_parse_ignores_leading_text_witness :
  @key_frame_parse nat "-5:(x)" None = @key_frame_parse nat "5:(x)" None.
Proof.
  apply (key_frame_parse_ignores_leading_text (V := nat) None "-" "5:(x)").
  - reflexivity.
  - discriminate.
Defined.

(** ** Keyframe expansion: no defined value, and the keyframes kept *)

Lemma dict_set_values (V : Type) (d : list (Z * V)) (k i : Z) (v x : V) :
  In (i, x) (dict_set Z.eqb d k v) -> In (i, x) d \/ (i, x) = (k, v).
Proof.
  induction d as [|[k' v'] d IH]; simpl.
  - intros [E|[]]. now right.
  - destruct (Z.eqb_spec k' k) as [->|N]; simpl.
    + intros [E|I]; [right; congruence | left; now right].
    + intros [E|I]; [left; now left|]. destruct (IH I); [left; now right | now right].
Qed.

Lemma first_valid_index_none (s : Series) :
  (forall i x, In (i, x) s -> isna x = true) -> first_valid_index s = None.
Proof.
  induction s as [|[i x] s IH]; simpl; intros H; [reflexivity|].
  rewrite (H i x (or_introl eq_refl)). apply IH. intros j w I. apply (H j w). now right.
Qed.

Lemma keyed_series_undefined (key_frames : list (Z * float)) (max_frames : Z) :
  (forall k v, In (k, v) key_frames -> isna v = true) ->
  forall i x, In (i, x) (keyed_series key_frames max_frames) -> isna x = true.
Proof.
  unfold keyed_series.
  assert (forall i x, In (i, x) (series_nan max_frames) -> isna x = true) as B.
  { intros i x I. apply series_nan_values in I. now subst. }
  revert B. generalize (series_nan max_frames) as s.
  induction key_frames as [|[k v] l IH]; intros s B H; simpl; [exact B|].
  apply IH.
  - intros i x I. apply dict_set_values in I as [I|E]; [now apply (B i x)|].
    inversion E; subst. apply (H k v). now left.
  - intros k' v' I. apply (H k' v'). now right.
Qed.

(** Among the keyframes with a defined value there is one whose index is
    least for the order of [f]. *)
Lemma defined_extreme (f : Z -> Z) (l : list (Z * float)) :
  (exists k v, In (k, v) l /\ isna v = false) ->
  exists k v, In (k, v) l /\ isna v = false /\
              forall j w, In (j, w) l -> isna w = false -> f k <= f j.
Proof.
  induction l as [|[k0 v0] l IH]; intros (k & v & I & D); [contradiction|].
  destruct (existsb (fun kv => negb (isna (snd kv))) l) eqn:E.
  - apply existsb_exists in E as ([k1 v1] & I1 & D1). simpl in D1.
    apply negb_true_iff in D1.
    destruct IH as (km & vm & Im & Dm & Hm); [now exists k1, v1|].
    destruct (isna v0) eqn:D0.
    + exists km, vm. split; [now right|]. split; [exact Dm|].
      intros j w [Eq|Ij] Dj; [inversion Eq; subst; congruence | now apply (Hm j w)].
    + destruct (Z_le_gt_dec (f km) (f k0)) as [Le|Gt].
      * exists km, vm. split; [now right|]. split; [exact Dm|].
        intros j w [Eq|Ij] Dj; [inversion Eq; subst; exact Le | now apply (Hm j w)].
      * exists k0, v0. split; [now left|]. split; [exact D0|].
        intros j w [Eq|Ij] Dj; [inversion Eq; subst; lia|].
        specialize (Hm j w Ij Dj). lia.
  - assert (forall j w, In (j, w) l -> isna w = true) as U.
    { intros j w Ij. destruct (isna w) eqn:Dw; [reflexivity|].
      assert (existsb (fun kv => negb (isna (snd kv))) l = true) as C.
      { apply existsb_exists. exists (j, w). split; [exact Ij|]. simpl. now rewrite Dw. }
      congruence. }
    destruct I as [Eq|I]; [inversion Eq; subst | rewrite (U k v I) in D; discriminate].
    exists k, v. split; [now left|]. split; [exact D|].
    intros j w [Eq'|Ij] Dj; [inversion Eq'; subst; lia|].
    rewrite (U j w Ij) in Dj. discriminate.
Qed.

Section Inbetweens.
Variable interpolate : string -> Series -> result Series.

(** A keyframe map without a defined value (an empty map, or one whose
    values are all NaN) has no valid index to clamp the ends to: the call
    raises [KeyError] before it interpolates, whatever the number of
    frames, the method and the output type. *)
Theorem key_frame_inbetweens_needs_defined_value
    (key_frames : list (Z * float)) (max_frames : Z) (integer : bool)
    (interp_method : string) :
  (forall k v, In (k, v) key_frames -> isna v = true) ->
  key_frame_inbetweens interpolate key_frames max_frames integer interp_method
  = Raise KeyError.
Proof.
  intros H. unfold key_frame_inbetweens, clamp_ends.
  rewrite first_valid_index_none; [reflexivity|].
  now apply keyed_series_undefined.
Qed.

(** For a keyframe map with distinct frame indices, all of them in
    [0, max_frames), with some defined value, [max_frames >= 2], float
    output and a method that fills gaps only: the series returned runs over
    the frames [0..max_frames-1] and has, at every keyframe with a defined
    value, that value. *)
Theorem key_frame_inbetweens_keeps_keyframes
    (key_frames : list (Z * float)) (max_frames : Z) (interp_method : string) :
  2 <= max_frames ->
  NoDup (map fst key_frames) ->
  (forall k v, In (k, v) key_frames -> 0 <= k < max_frames) ->
  (exists k v, In (k, v) key_frames /\ isna v = false) ->
  fills_gaps interpolate
    (lower (effective_method interp_method (List.length key_frames))) ->
  exists out,
    key_frame_inbetweens interpolate key_frames max_frames false interp_method
    = Ok (FloatSeries out) /\
    map fst out = frames_upto max_frames /\
    forall k v, In (k, v) key_frames -> isna v = false ->
                dict_get Z.eqb out k = Some v.
Proof.
  intros M N R Ex F.
  destruct (defined_extreme (fun k => k) key_frames Ex)
    as (kmin & vmin & Imin & Dmin & Hmin).
  destruct (defined_extreme Z.opp key_frames Ex)
    as (kmax & vmax & Imax & Dmax & Hmax).
  destruct (clamp_ends_spec (keyed_series key_frames max_frames)
              max_frames kmin kmax vmin vmax) as (s & C & L & G); try assumption.
  - now apply keyed_series_labels.
  - now apply keyed_series_has.
  - intros j w I D. apply (Hmin j w); [|exact D].
    now apply (keyed_series_defined key_frames max_frames).
  - now apply keyed_series_has.
  - intros j w I D.
    assert (- kmax <= - j); [|lia]. apply (Hmax j w); [|exact D].
    now apply (keyed_series_defined key_frames max_frames).
  - assert (defined_in s) as Ds.
    { exists 0, vmin. split; [|exact Dmin]. rewrite G.
      destruct (Z.eqb_spec 0 (max_frames - 1)); [lia | reflexivity]. }
    destruct (F s Ds) as (out & E & Lo & Keep).
    exists out. unfold key_frame_inbetweens. rewrite C. simpl. rewrite E. simpl.
    split; [reflexivity|]. split; [now rewrite Lo|].
    intros k v I D. apply Keep; [|exact D]. rewrite G.
    pose proof (R k v I) as Rk.
    destruct (Z.eqb_spec k (max_frames - 1)) as [Ek|Nk].
    + assert (kmax = k) as ->.
      { pose proof (Hmax k v I D). pose proof (R kmax vmax Imax). lia. }
      f_equal. apply (dict_In_get _ _ _ _ N) in I.
      apply (dict_In_get _ _ _ _ N) in Imax. congruence.
    + destruct (Z.eqb_spec k 0) as [E0|N0].
      * assert (kmin = k) as ->.
        { pose proof (Hmin k v I D). pose proof (R kmin vmin Imin). lia. }
        f_equal. apply (dict_In_get _ _ _ _ N) in I.
        apply (dict_In_get _ _ _ _ N) in Imin. congruence.
      * apply dict_In_get; [rewrite keyed_series_labels by assumption;
                            apply frames_upto_NoDup|].
        now apply keyed_series_has.
Qed.
End Inbetweens.

Lemma key_frame_inbetweens_needs_defined_value_witness :
  key_frame_inbetweens interpolate_linear_only [(3, nan)] 6 true "Linear"
  = Raise KeyError.
Proof.
  apply (key_frame_inbetweens_needs_defined_value interpolate_linear_only
           [(3, nan)] 6 true "Linear").
  intros k v [E|[]]. inversion E. reflexivity.
Defined.

Lemma key_frame_inbetweens_keeps_keyframes_witness :
  exists out,
    key_frame_inbetweens interpolate_linear_only
      [(2, 1.5%float); (0, nan); (4, 3.0%float)] 8 false "Linear"
    = Ok (FloatSeries out) /\
    map fst out = frames_upto 8 /\
    forall k v, In (k, v) [(2, 1.5%float); (0, nan); (4, 3.0%float)] ->
                isna v = false -> dict_get Z.eqb out k = Some v.
Proof.
  apply (key_frame_inbetweens_keeps_keyframes interpolate_linear_only
           [(2, 1.5%float); (0, nan); (4, 3.0%float)] 8 "Linear").
  - lia.
  - repeat constructor; simpl; intuition lia.
  - intros k v [E|[E|[E|[]]]]; inversion E; lia.
  - exists 2, 1.5%float. split; [now left | reflexivity].
  - exact interpolate_linear_only_fills_gaps.
Defined.

(** ** The transform call: errors, message boundaries, the request *)

Section ImageXformCalls.
Variable ndarray : Type.
Variable image_to_png_bytes : ndarray -> bytes.
Variable imdecode : bytes -> result (option ndarray).
Variables (images : list ndarray) (ops : list TransformOperation)
          (engine : string).

Local Abbreviation call Generate :=
  (image_xform ndarray image_to_png_bytes imdecode Generate images ops engine).
Local Abbreviation request := (sent ndarray image_to_png_bytes images ops engine).
Local Abbreviation on_artifact := (on_artifact ndarray imdecode).

(** A mask of [arts] that the codec decoded to an array. *)
Definition array_mask_in (arts : list Artifact) : Prop :=
  exists m im, In m arts /\ is_mask m = true /\ imdecode (binary m) = Ok (Some im).

(** The artifact [a], arriving after [before], ends the loop with [e]:
    it is an image or a mask on whose payload the codec raises [e], or it
    is a mask that arrives after a mask decoded to an array, and [e] is
    the exception for several masks. *)
Definition ends_loop (before : list Artifact) (a : Artifact) (e : exn) : Prop :=
  (is_image a || is_mask a = true /\ imdecode (binary a) = Raise e) \/
  (is_mask a = true /\ e = multiple_masks /\ array_mask_in before).

Lemma loop_raises (arts : list Artifact) (imgs : list (option ndarray))
    (mask : option ndarray) (e : exn) :
  for_each on_artifact arts (imgs, mask) = Raise e ->
  exists before a after,
    arts = (before ++ a :: after)%list /\
    ((is_image a || is_mask a = true /\ imdecode (binary a) = Raise e) \/
     (is_mask a = true /\ e = multiple_masks /\
      (mask <> None \/ array_mask_in before))).
Proof.
  revert imgs mask; induction arts as [|a arts IH]; intros imgs mask H;
    [discriminate H|].
  change (for_each on_artifact (a :: arts) (imgs, mask))
    with (st' <- on_artifact (imgs, mask) a ;; for_each on_artifact arts st') in H.
  assert (forall imgs' mask',
            for_each on_artifact arts (imgs', mask') = Raise e ->
            (mask' <> None -> mask <> None \/ array_mask_in [a]) ->
            exists before a0 after,
              (a :: arts = before ++ a0 :: after)%list /\
              ((is_image a0 || is_mask a0 = true /\ imdecode (binary a0) = Raise e) \/
               (is_mask a0 = true /\ e = multiple_masks /\
                (mask <> None \/ array_mask_in before)))) as Step.
  { intros imgs' mask' R S.
    destruct (IH imgs' mask' R) as (before & a0 & after & -> & [C|(M & E & C)]).
    - exists (a :: before), a0, after. split; [reflexivity | now left].
    - exists (a :: before), a0, after. split; [reflexivity|]. right.
      split; [exact M|]. split; [exact E|].
      destruct C as [C|(m & im & I & Mm & Dm)].
      + destruct (S C) as [N|(m & im & [<-|[]] & Mm & Dm)]; [now left|].
        right. exists a, im. split; [now left | now split].
      + right. exists m, im. split; [now right | now split]. }
  destruct (image_or_mask_or_other a) as [[I M]|[[I M]|[I M]]].
  - rewrite on_artifact_image in H by assumption.
    destruct (imdecode (binary a)) as [im|e'] eqn:D; cbn [bind] in H.
    + apply (Step _ _ H). intros N. now left.
    + inversion H; subst. exists [], a, arts. split; [reflexivity|]. left.
      split; [now rewrite I | exact D].
  - rewrite on_artifact_mask in H by assumption.
    destruct (imdecode (binary a)) as [im|e'] eqn:D; cbn [bind] in H.
    + destruct mask as [x|]; cbn [bind] in H.
      * inversion H; subst. exists [], a, arts. split; [reflexivity|]. right.
        split; [exact M|]. split; [reflexivity|]. left. discriminate.
      * apply (Step _ _ H). intros N. right. destruct im as [x|]; [|congruence].
        exists a, x. split; [now left | now split].
    + inversion H; subst. exists [], a, arts. split; [reflexivity|]. left.
      split; [rewrite M; apply orb_true_r | exact D].
  - rewrite on_artifact_other in H by assumption. cbn [bind] in H.
    apply (Step _ _ H). intros N. now left.
Qed.

Lemma slot_stays (before : list Artifact) (imgs imgs' : list (option ndarray))
    (mask mask' : option ndarray) :
  for_each on_artifact before (imgs, mask) = Ok (imgs', mask') ->
  mask <> None \/ array_mask_in before -> mask' <> None.
Proof.
  revert imgs mask; induction before as [|b before IH]; intros imgs mask H C.
  - inversion H; subst. destruct C as [C|(m & im & [] & _)]. exact C.
  - change (for_each on_artifact (b :: before) (imgs, mask))
      with (st' <- on_artifact (imgs, mask) b ;; for_each on_artifact before st') in H.
    destruct (image_or_mask_or_other b) as [[I M]|[[I M]|[I M]]].
    + rewrite on_artifact_image in H by assumption.
      destruct (imdecode (binary b)) as [im|e'] eqn:D; cbn [bind] in H;
        [|discriminate H].
      apply (IH _ _ H). destruct C as [C|(m & x & [<-|J] & Mm & Dm)];
        [now left | congruence |]. right. now exists m, x.
    + rewrite on_artifact_mask in H by assumption.
      destruct (imdecode (binary b)) as [im|e'] eqn:D; cbn [bind] in H;
        [|discriminate H].
      destruct mask as [y|]; cbn [bind] in H; [discriminate H|].
      apply (IH _ _ H). destruct C as [C|(m & x & [<-|J] & Mm & Dm)];
        [congruence | left; congruence |]. right. now exists m, x.
    + rewrite on_artifact_other in H by assumption. cbn [bind] in H.
      apply (IH _ _ H). destruct C as [C|(m & x & [<-|J] & Mm & Dm)];
        [now left | congruence |]. right. now exists m, x.
Qed.

Lemma loop_must_raise (before after : list Artifact) (a : Artifact) (e : exn)
    (st : list (option ndarray) * option ndarray) :
  ends_loop before a e ->
  exists e', for_each on_artifact (before ++ a :: after) st = Raise e'.
Proof.
  intros C. rewrite for_each_app.
  destruct (for_each on_artifact before st) as [[imgs' mask']|e0] eqn:B;
    cbn [bind]; [|now exists e0].
  change (for_each on_artifact (a :: after) (imgs', mask'))
    with (st' <- on_artifact (imgs', mask') a ;; for_each on_artifact after st').
  destruct C as [[R D]|(M & _ & C)].
  - destruct (image_or_mask_or_other a) as [[I M]|[[I M]|[I M]]].
    + rewrite on_artifact_image, D by assumption. now exists e.
    + rewrite on_artifact_mask, D by assumption. now exists e.
    + rewrite I, M in R. discriminate R.
  - destruct st as [imgs mask].
    assert (mask' <> None) as N by (apply (slot_stays _ _ _ _ _ B); now right).
    rewrite on_artifact_mask by assumption.
    destruct (imdecode (binary a)) as [im|e0]; cbn [bind]; [|now exists e0].
    destruct mask'; [|congruence]. now exists multiple_masks.
Qed.


(** How the service splits the artifacts among the messages of the stream
    is of no consequence: two services whose answers to the request carry
    the same artifacts in the same order give the same outcome. *)
Theorem image_xform_message_boundaries (Generate1 Generate2 : Request -> list Answer) :
  arrivals (Generate1 request) = arrivals (Generate2 request) ->
  call Generate1 = call Generate2.
Proof.
  intros H.
  assert (images = [] \/ images <> []) as [E|NE]
    by (destruct images; [now left | right; discriminate]).
  - unfold image_xform. now rewrite E.
  - rewrite !image_xform_loop by exact NE. now rewrite H.
Qed.

(** The request of a call: the engine and the operations as given, and
    one prompt for each input image, in order, holding the image as PNG
    bytes in an image-typed artifact and marked as initial image.  Two
    services that agree on the requests of this form give the same
    outcome. *)
Theorem image_xform_request (Generate1 Generate2 : Request -> list Answer) :
  (forall rq,
     engine_id rq = engine -> transform_sequence rq = ops ->
     map (fun p => binary (artifact p)) (prompt rq) = map image_to_png_bytes images ->
     Forall (fun p => init (parameters p) = true /\
                      type (artifact p) = ARTIFACT_IMAGE) (prompt rq) ->
     Generate1 rq = Generate2 rq) ->
  call Generate1 = call Generate2.
Proof.
  intros H. unfold image_xform.
  destruct (List.length images =? 0)%nat; [reflexivity|].
  rewrite H; try reflexivity.
  - simpl. rewrite map_map. reflexivity.
  - simpl. apply Forall_forall. intros p I.
    apply in_map_iff in I as (x & <- & _). now split.
Qed.
End ImageXformCalls.

Lemma image_xform_message_boundaries_witness :
  image_xform bytes (fun b => b) imdecode_all
    (fun _ => [mkAnswer [image_artifact [Byte.x01]; mask_artifact [Byte.x03]]])
    [[Byte.x00]] [] "transform-server-v1"
  = image_xform bytes (fun b => b) imdecode_all
      (fun _ => [mkAnswer [image_artifact [Byte.x01]]; mkAnswer [];
                 mkAnswer [mask_artifact [Byte.x03]]])
      [[Byte.x00]] [] "transform-server-v1".
Proof.
  apply (image_xform_message_boundaries bytes (fun b => b) imdecode_all
           [[Byte.x00]] [] "transform-server-v1"
           (fun _ => [mkAnswer [image_artifact [Byte.x01]; mask_artifact [Byte.x03]]])
           (fun _ => [mkAnswer [image_artifact [Byte.x01]]; mkAnswer [];
                      mkAnswer [mask_artifact [Byte.x03]]])).
  reflexivity.
Defined.

(** A service that answers the request of one image with that image, and
    any other request with nothing, and a service that echoes the first
    prompt of every request. *)
Definition echo_first (rq : Request) : list Answer :=
  match prompt rq with
  | p :: _ => [mkAnswer [artifact p]]
  | [] => []
  end.

Definition echo_single (rq : Request) : list Answer :=
  match prompt rq with
  | [p] => if init (parameters p) then [mkAnswer [artifact p]] else []
  | _ => []
  end.

Lemma image_xform_request_witness :
  image_xform bytes (fun b => b) imdecode_all echo_first
    [[Byte.x07]] [] "transform-server-v1"
  = image_xform bytes (fun b => b) imdecode_all echo_single
      [[Byte.x07]] [] "transform-server-v1".
Proof.
  apply (image_xform_request bytes (fun b => b) imdecode_all
           [[Byte.x07]] [] "transform-server-v1" echo_first echo_single).
  intros [e [|p [|q ps]] t] _ _ B F; try discriminate B.
  inversion F as [|? ? [I _] _]; subst. unfold echo_first, echo_single. simpl in *.
  now rewrite I.
Defined.

(** ** Opening images: what is handed on, shown and logged *)

Section OpenImagesFacts.
Variable PILImage : Type.
Variable Image_open : bytes -> result PILImage.

Local Abbreviation open_images := (open_images PILImage Image_open).

(** The items handed to the consumer, the pictures shown and the lines
    logged, each in order. *)
Definition yielded (effects : list (effect PILImage)) : list (string * Artifact) :=
  flat_map (fun e => match e with yield path a => [(path, a)] | _ => [] end) effects.

Definition shown (effects : list (effect PILImage)) : list PILImage :=
  flat_map (fun e => match e with show img => [img] | _ => [] end) effects.

Definition logged (effects : list (effect PILImage)) : list string :=
  flat_map (fun e => match e with logger_info msg => [msg] | _ => [] end) effects.

Definition is_log (e : effect PILImage) : bool :=
  match e with logger_info _ => true | _ => false end.

(** The items whose artifact is an image. *)
Definition image_items (images : list (string * Artifact)) : list (string * Artifact) :=
  filter (fun item => is_image (snd item)) images.

(** Every image artifact of [images] can be opened. *)
Definition all_readable (images : list (string * Artifact)) : Prop :=
  forall path a, In (path, a) images -> is_image a = true ->
                 exists img, Image_open (binary a) = Ok img.

Lemma yielded_log (verbose : bool) (path : string) (rest : list (effect PILImage)) :
  yielded ((if verbose then [logger_info ("opening " ++ path)] else []) ++ rest)%list
  = yielded rest.
Proof. now destruct verbose. Qed.

Lemma shown_log (verbose : bool) (path : string) (rest : list (effect PILImage)) :
  shown ((if verbose then [logger_info ("opening " ++ path)] else []) ++ rest)%list
  = shown rest.
Proof. now destruct verbose. Qed.

Lemma open_images_readable (images : list (string * Artifact)) (verbose : bool) :
  all_readable images ->
  snd (open_images images verbose) = Ok tt /\
  yielded (fst (open_images images verbose)) = images /\
  map Ok (shown (fst (open_images images verbose)))
  = map (fun item => Image_open (binary (snd item))) (image_items images).
Proof.
  induction images as [|[path a] l IH]; intros R.
  - now simpl.
  - destruct IH as (I1 & I2 & I3).
    { intros p b I. apply (R p b). now right. }
    unfold image_items in *. cbn [open_images filter snd]. fold (is_image a).
    destruct (is_image a) eqn:Ia.
    + destruct (R path a (or_introl eq_refl) Ia) as (img & O). rewrite O.
      destruct (open_images l verbose) as [effects r]. cbn [fst snd] in *.
      rewrite yielded_log, shown_log. unfold yielded, shown in *.
      split; [exact I1|]. split; [cbn; now rewrite I2|].
      cbn; now rewrite O, I3.
    + destruct (open_images l verbose) as [effects r]. cbn [fst snd] in *.
      unfold yielded, shown in *.
      split; [exact I1|]. split; [cbn; now rewrite I2 | assumption].
Qed.

Lemma open_images_logs (images : list (string * Artifact)) :
  all_readable images ->
  logged (fst (open_images images true))
  = map (fun item => "opening " ++ fst item) (image_items images).
Proof.
  induction images as [|[path a] l IH]; intros R; [reflexivity|].
  assert (all_readable l) as Rl by (intros p b I; apply (R p b); now right).
  specialize (IH Rl). unfold image_items in *.
  cbn [open_images filter snd]. fold (is_image a).
  destruct (is_image a) eqn:Ia.
  - destruct (R path a (or_introl eq_refl) Ia) as (img & O). rewrite O.
    destruct (open_images l true) as [effects r]. cbn [fst snd] in *.
    unfold logged in *. cbn. now rewrite IH.
  - destruct (open_images l true) as [effects r]. cbn [fst snd] in *.
    unfold logged in *. cbn. exact IH.
Qed.

Lemma open_images_quiet (images : list (string * Artifact)) :
  logged (fst (open_images images false)) = [].
Proof.
  induction images as [|[path a] l IH]; [reflexivity|].
  cbn [open_images]. destruct (ArtifactType_eqb (type a) ARTIFACT_IMAGE).
  - destruct (Image_open (binary a)) as [img|e]; [|reflexivity].
    now destruct (open_images l false) as [effects r].
  - now destruct (open_images l false) as [effects r].
Qed.

(** When every image artifact can be opened, the generator runs to its
    end and hands on every item as it came, in order, whatever the type
    of its artifact; it shows the picture of each image artifact, in
    order, and of no other; and it logs one line for each of these when
    [verbose] is set, and none otherwise. *)
Theorem open_images_passes_items_through
    (images : list (string * Artifact)) (verbose : bool) :
  all_readable images ->
  snd (open_images images verbose) = Ok tt /\
  yielded (fst (open_images images verbose)) = images /\
  map Ok (shown (fst (open_images images verbose)))
  = map (fun item => Image_open (binary (snd item))) (image_items images) /\
  logged (fst (open_images images verbose))
  = if verbose then map (fun item => "opening " ++ fst item) (image_items images)
    else [].
Proof.
  intros R.
  destruct (open_images_readable images verbose R) as (Ends & Yields & Shows).
  split; [exact Ends|]. split; [exact Yields|]. split; [exact Shows|].
  destruct verbose.
  - now apply open_images_logs.
  - apply open_images_quiet.
Qed.

Lemma open_images_app (before after : list (string * Artifact)) (verbose : bool) :
  all_readable before ->
  open_images (before ++ after)%list verbose
  = ((fst (open_images before verbose) ++ fst (open_images after verbose))%list,
     snd (open_images after verbose)).
Proof.
  induction before as [|[path a] l IH]; intros R.
  - simpl. now destruct (open_images after verbose).
  - assert (all_readable l) as Rl by (intros p b I; apply (R p b); now right).
    specialize (IH Rl). cbn [open_images app]. fold (is_image a).
    destruct (is_image a) eqn:Ia.
    + destruct (R path a (or_introl eq_refl) Ia) as (img & O). rewrite O.
      rewrite IH. destruct (open_images l verbose) as [effects r]. simpl.
      now rewrite <- app_assoc.
    + rewrite IH. now destruct (open_images l verbose) as [effects r].
Qed.

(** The generator stops at the first image artifact that cannot be
    opened: the exception of the imaging library ends it, the items before
    that one have been handed on, and neither that item nor any after it
    is handed on or shown. *)
Theorem open_images_stops_at_unreadable
    (before after : list (string * Artifact)) (path : string) (a : Artifact)
    (e : exn) (verbose : bool) :
  all_readable before ->
  is_image a = true -> Image_open (binary a) = Raise e ->
  let run := open_images (before ++ (path, a) :: after)%list verbose in
  snd run = Raise e /\
  yielded (fst run) = before /\
  map Ok (shown (fst run))
  = map (fun item => Image_open (binary (snd item))) (image_items before).
Proof.
  intros R Ia O run. subst run. rewrite open_images_app by assumption.
  destruct (open_images_readable before verbose R) as (_ & Y & S).
  cbn [open_images fst snd]. fold (is_image a). rewrite Ia, O. cbn [fst snd].
  unfold yielded, shown in *. rewrite !flat_map_app.
  split; [reflexivity|]. split.
  - rewrite Y. destruct verbose; simpl; now rewrite app_nil_r.
  - rewrite <- S. f_equal. destruct verbose; simpl; now rewrite app_nil_r.
Qed.

(** [verbose] adds log lines and changes nothing else: the quiet run logs
    nothing, and is the verbose run without its log lines; both end the
    same way. *)
Theorem open_images_verbose_only_logs (images : list (string * Artifact)) :
  logged (fst (open_images images false)) = [] /\
  fst (open_images images false)
  = filter (fun e => negb (is_log e)) (fst (open_images images true)) /\
  snd (open_images images false) = snd (open_images images true).
Proof.
  split; [apply open_images_quiet|].
  induction images as [|[path a] l (I2 & I3)]; [now simpl|].
  cbn [open_images]. destruct (ArtifactType_eqb (type a) ARTIFACT_IMAGE).
  - destruct (Image_open (binary a)) as [img|e]; [|now simpl].
    destruct (open_images l false) as [e0 r0], (open_images l true) as [e1 r1].
    simpl in *. now subst.
  - destruct (open_images l false) as [e0 r0], (open_images l true) as [e1 r1].
    simpl in *. now subst.
Qed.
End OpenImagesFacts.

(** An opener that reads every payload but the empty one. *)
Definition open_nonempty (b : bytes) : result bytes :=
  match b with
  | [] => Raise (Exception "cannot identify image file")
  | _ => Ok b
  end.

Lemma open_images_passes_items_through_witness :
  let images := [("a.png", image_artifact [Byte.x01]); ("b.txt", text_artifact []);
                 ("c.png", image_artifact [Byte.x02])] in
  snd (open_images bytes open_nonempty images true) = Ok tt /\
  yielded bytes (fst (open_images bytes open_nonempty images true)) = images /\
  map Ok (shown bytes (fst (open_images bytes open_nonempty images true)))
  = map (fun item => open_nonempty (binary (snd item))) (image_items images) /\
  logged bytes (fst (open_images bytes open_nonempty images true))
  = map (fun item => "opening " ++ fst item) (image_items images).
Proof.
  apply (open_images_passes_items_through bytes open_nonempty
           [("a.png", image_artifact [Byte.x01]); ("b.txt", text_artifact []);
            ("c.png", image_artifact [Byte.x02])] true).
  intros path a [E|[E|[E|[]]]] I; inversion E; subst; try discriminate I;
    eexists; reflexivity.
Defined.

Lemma open_images_stops_at_unreadable_witness :
  let run := open_images bytes open_nonempty
               ([("a.png", image_artifact [Byte.x01])]
                ++ ("bad.png", image_artifact []) :: [("c.png", image_artifact [Byte.x02])])
               false in
  snd run = Raise (Exception "cannot identify image file") /\
  yielded bytes (fst run) = [("a.png", image_artifact [Byte.x01])] /\
  map Ok (shown bytes (fst run))
  = map (fun item => open_nonempty (binary (snd item)))
        (image_items [("a.png", image_artifact [Byte.x01])]).
Proof.
  apply (open_images_stops_at_unreadable bytes open_nonempty
           [("a.png", image_artifact [Byte.x01])]
           [("c.png", image_artifact [Byte.x02])] "bad.png" (image_artifact [])
           (Exception "cannot identify image file") false).
  - intros path a [E|[]] I; inversion E; subst. eexists; reflexivity.
  - reflexivity.
  - reflexivity.
Defined.
